(** * kurdishtranslate: the translation-request orchestration layer

    A shallow embedding of the request debouncer ([useDebounce]), the
    translation service wrapper ([translateText]) and the orchestrating
    component ([App]: [performTranslation], the language effect and the
    click handlers), followed by the properties proved about them. *)

From Stdlib Require Import NArith String Ascii Lia.
From stdpp Require Import base decidable option list numbers.
From stdpp Require Import gmap.

Local Open Scope N_scope.
Local Set Warnings "-register-all".

(** ** JavaScript strings

    A JavaScript string is a sequence of 16-bit code units.  String
    literals of the sources are written as Rocq strings (the bytes of
    their UTF-8 encoding) and converted with [js]. *)
Module JS.

Abbreviation jsstring := (list N).

Fixpoint bytes (s : string) : list N :=
  match s with
  | EmptyString => []
  | String a r => N_of_ascii a :: bytes r
  end.

(** Code points of a UTF-8 byte sequence (a truncated trailing
    sequence is dropped; the literals of this file are well formed). *)
Fixpoint utf8_decode (bs : list N) : list N :=
  match bs with
  | [] => []
  | b0 :: r0 =>
    if b0 <? 128 then b0 :: utf8_decode r0 else
    match r0 with
    | [] => []
    | b1 :: r1 =>
      if b0 <? 224 then ((b0 mod 32) * 64 + b1 mod 64) :: utf8_decode r1 else
      match r1 with
      | [] => []
      | b2 :: r2 =>
        if b0 <? 240
        then ((b0 mod 16) * 4096 + (b1 mod 64) * 64 + b2 mod 64) :: utf8_decode r2
        else
        match r2 with
        | [] => []
        | b3 :: r3 =>
          ((b0 mod 8) * 262144 + (b1 mod 64) * 4096 + (b2 mod 64) * 64 + b3 mod 64)
            :: utf8_decode r3
        end
      end
    end
  end.

(** UTF-16 code units of a code point. *)
Definition code_units (cp : N) : list N :=
  if cp <? 65536 then [cp]
  else [55296 + (cp - 65536) / 1024; 56320 + (cp - 65536) mod 1024].

Definition js (s : string) : jsstring :=
  flat_map code_units (utf8_decode (bytes s)).
Arguments js : simpl never.

(** [WhiteSpace] and [LineTerminator] code points, the ones
    [String.prototype.trim] strips. *)
Definition isWhiteSpace (c : N) : bool :=
  (c =? 9) || (c =? 10) || (c =? 11) || (c =? 12) || (c =? 13) || (c =? 32)
  || (c =? 160) || (c =? 5760) || ((8192 <=? c) && (c <=? 8202))
  || (c =? 8232) || (c =? 8233) || (c =? 8239) || (c =? 8287)
  || (c =? 12288) || (c =? 65279).

Fixpoint trimStart (s : jsstring) : jsstring :=
  match s with
  | [] => []
  | c :: r => if isWhiteSpace c then trimStart r else s
  end.

Definition trimEnd (s : jsstring) : jsstring := rev (trimStart (rev s)).

(** [s.trim()] *)
Definition trim (s : jsstring) : jsstring := trimEnd (trimStart s).

(** Truthiness of a string: every string but the empty one. *)
Definition truthy (s : jsstring) : bool :=
  match s with [] => false | _ :: _ => true end.

(** [a || b] on strings. *)
Definition or_else (a b : jsstring) : jsstring := if truthy a then a else b.

(** [!text.trim()] *)
Definition blank (s : jsstring) : bool := negb (truthy (trim s)).
Arguments blank : simpl never.

(** [++n] on a number holding a non-negative integer: exact below
    2^53, where the doubles stop being contiguous and [n + 1] rounds
    back to [n]. *)
Definition MAX_EXACT : N := 9007199254740992.

Definition incr (n : N) : N := if n <? MAX_EXACT then n + 1 else n.
Arguments incr : simpl never.

(** The settlement of a promise. *)
Inductive Settled (A : Type) : Type :=
| Resolved (a : A)
| Rejected (message : jsstring).
Arguments Resolved {A} a.
Arguments Rejected {A} message.

End JS.
Import JS.


(** ** types.ts *)
Module Types.

(** [type Language = 'auto' | 'ku' | 'tr' | 'en'] (the later revision of
    the file drops ['auto']). *)
Inductive Language : Type := Auto | Ku | Tr | En.

#[global] Instance Language_eq_dec : EqDecision Language.
Proof. solve_decision. Defined.

(** The string a [Language] value is at run time. *)
Definition code (l : Language) : jsstring :=
  match l with
  | Auto => js "auto" | Ku => js "ku" | Tr => js "tr" | En => js "en"
  end.

Definition languageMap (l : Language) : jsstring :=
  match l with
  | Auto => js "Auto Detect"
  | Ku => js "Kurdish"
  | Tr => js "Turkish"
  | En => js "English"
  end.

(** [interface TranslationResult].  The interface declares every field a
    string ([S := jsstring]) and the alternatives an array of strings
    ([L := list jsstring]); [translateText] fills the record from an
    untyped parse, so the record is also used at the type of arbitrary
    values. *)
Record TranslationResult (S L : Type) : Type := {
  detectedLanguage : S;
  correctedSourceText : S;
  mainTranslation : S;
  alternativeTranslations : L;
  meaningExplanation : S;
}.
Arguments detectedLanguage {S L} _.
Arguments correctedSourceText {S L} _.
Arguments mainTranslation {S L} _.
Arguments alternativeTranslations {S L} _.
Arguments meaningExplanation {S L} _.

(** The interface as declared. *)
Abbreviation Translation := (TranslationResult jsstring (list jsstring)).

End Types.
Import Types.

(** ** i18n.ts

    The string table in the revision the component takes its keys from
    (it has [alternativesToggle], [footerCredit] and the three language
    codes as keys). *)
Module I18n.

(** [type UiLanguage = 'en' | 'tr' | 'ku'] *)
Inductive UiLanguage : Type := en | tr | ku.

#[global] Instance UiLanguage_eq_dec : EqDecision UiLanguage.
Proof. solve_decision. Defined.

(** [uiLang as Language] *)
Definition asLanguage (l : UiLanguage) : Language :=
  match l with en => En | tr => Tr | ku => Ku end.

(** [type TranslationKey = keyof typeof translations['en']] *)
Inductive TranslationKey : Type :=
| appTitle | kurdish | turkish | english | key_ku | key_tr | key_en
| swapLanguages | sourcePlaceholder | didYouMean | alternativesToggle
| meaningTitle | apiError | apiKeyMissingError | copyTooltip | speakTooltip
| infoTooltip | kurdishNotSupportedForTTS | footerCredit.

Definition translations_en (k : TranslationKey) : jsstring :=
  match k with
  | appTitle => js "KurdishAI"
  | kurdish => js "Kurdish"
  | turkish => js "Turkish"
  | english => js "English"
  | key_ku => js "Kurdish"
  | key_tr => js "Turkish"
  | key_en => js "English"
  | swapLanguages => js "Swap languages"
  | sourcePlaceholder => js "Enter text..."
  | didYouMean => js "Did you mean:"
  | alternativesToggle => js "Alternative translations"
  | meaningTitle => js "Meaning & Context"
  | apiError => js "API connection failed. Please check your connection and API Key."
  | apiKeyMissingError =>
      js "API Key is not configured. Please set it up in your deployment environment."
  | copyTooltip => js "Copy to clipboard"
  | speakTooltip => js "Read text aloud"
  | infoTooltip => js "Show meaning and context"
  | kurdishNotSupportedForTTS => js "Text-to-speech is not supported for Kurdish."
  | footerCredit => js "App coded by @ozguradmin"
  end.

Definition translations_tr (k : TranslationKey) : jsstring :=
  match k with
  | appTitle => js "KürtçeAI"
  | kurdish => js "Kürtçe"
  | turkish => js "Türkçe"
  | english => js "İngilizce"
  | key_ku => js "Kürtçe"
  | key_tr => js "Türkçe"
  | key_en => js "İngilizce"
  | swapLanguages => js "Dilleri değiştir"
  | sourcePlaceholder => js "Metin girin..."
  | didYouMean => js "Bunu mu demek istediniz:"
  | alternativesToggle => js "Alternatif çeviriler"
  | meaningTitle => js "Anlam ve Bağlam"
  | apiError =>
      js "API bağlantısı başarısız. Lütfen bağlantınızı ve API anahtarınızı kontrol edin."
  | apiKeyMissingError =>
      js "API Anahtarı yapılandırılmamış. Lütfen dağıtım ortamınızda ayarlayın."
  | copyTooltip => js "Panoya kopyala"
  | speakTooltip => js "Metni seslendir"
  | infoTooltip => js "Anlam ve bağlamı göster"
  | kurdishNotSupportedForTTS => js "Seslendirme Kürtçe için desteklenmemektedir."
  | footerCredit => js "Uygulama @ozguradmin tarafından kodlanmıştır"
  end.

Definition translations_ku (k : TranslationKey) : jsstring :=
  match k with
  | appTitle => js "KurdîAI"
  | kurdish => js "Kurdî"
  | turkish => js "Tirkî"
  | english => js "Îngilîzî"
  | key_ku => js "Kurdî"
  | key_tr => js "Tirkî"
  | key_en => js "Îngilîzî"
  | swapLanguages => js "Zimanan biguherîne"
  | sourcePlaceholder => js "Nivîsê binivîse..."
  | didYouMean => js "Me منظورا te ev bû:"
  | alternativesToggle => js "Wergerên alternatîf"
  | meaningTitle => js "Wate û Çarçove"
  | apiError =>
      js "Têkiliya APIyê têk çû. Ji kerema xwe pêwendiya xwe û mifteya APIya xwe kontrol bikin."
  | apiKeyMissingError =>
      js "Mifteya APIyê nehatiye veavakirin. Ji kerema xwe wê di hawîrdora xweya bicîhkirinê de saz bikin."
  | copyTooltip => js "Li clipboardê kopî bike"
  | speakTooltip => js "Nivîsê bi deng bixwîne"
  | infoTooltip => js "Wate û çarçoveyê nîşan bide"
  | kurdishNotSupportedForTTS =>
      js "Xwendina bi deng ji bo zimanê Kurdî nayê piştgirî kirin."
  | footerCredit => js "Serlêdan ji hêla @ozguradmin ve hatî kod kirin"
  end.

Definition translations (l : UiLanguage) : TranslationKey -> jsstring :=
  match l with
  | en => translations_en
  | tr => translations_tr
  | ku => translations_ku
  end.

(** [t(key)], as every call of the component has it (no [params]):
    [(translations[language] && translations[language][key])
     || translations['en'][key]]. *)
Definition t (language : UiLanguage) (key : TranslationKey) : jsstring :=
  or_else (translations language key) (translations en key).
Arguments t : simpl never.

End I18n.

(** ** services/geminiService.ts *)
Module GeminiService.

(** What [ai.models.generateContent] is called with.  The instruction
    template is fixed prose around four interpolated values, which are
    what a call is identified by here, next to the model name. *)
Record GenerateRequest : Type := {
  model : jsstring;
  sourceLanguageName : jsstring;
  targetLanguageName : jsstring;
  textToTranslate : jsstring;
  uiLanguageName : jsstring;
}.

(** What the call comes back with: it throws, or it answers with a
    response whose [text] may be undefined. *)
Inductive GenerateResponse : Type :=
| Throws
| Responds (text : option jsstring).

Section Service.

(** JSON numbers are doubles; only their truthiness matters here. *)
Context {number : Type} (number_truthy : number -> bool).

(** The values [JSON.parse] produces, and [undefined]. *)
Inductive value : Type :=
| VUndefined
| VNull
| VBool (b : bool)
| VNum (n : number)
| VStr (s : jsstring)
| VArr (items : list value)
| VObj (props : list (jsstring * value)).

Definition value_truthy (v : value) : bool :=
  match v with
  | VUndefined | VNull => false
  | VBool b => b
  | VNum n => number_truthy n
  | VStr s => truthy s
  | VArr _ | VObj _ => true
  end.

(** [a || b] *)
Definition value_or (a b : value) : value := if value_truthy a then a else b.

Fixpoint lookup_prop (name : jsstring) (props : list (jsstring * value)) : value :=
  match props with
  | [] => VUndefined
  | (k, v) :: rest => if decide (k = name) then v else lookup_prop name rest
  end.

(** [result.name]: a TypeError on [null] and [undefined]; the property
    of an object, [undefined] when it has none of that name; [undefined]
    on the other values, whose prototypes have none of the five names
    read here. *)
Definition get (result : value) (name : jsstring) : option value :=
  match result with
  | VUndefined | VNull => None
  | VObj props => Some (lookup_prop name props)
  | VBool _ | VNum _ | VStr _ | VArr _ => Some VUndefined
  end.

(** The record the function returns, before the declared type is
    believed. *)
Definition Returned : Type := TranslationResult value value.

(** No field of a returned record is [undefined]. *)
Definition all_defined (r : Returned) : Prop :=
  detectedLanguage r ≠ VUndefined ∧ correctedSourceText r ≠ VUndefined
  ∧ mainTranslation r ≠ VUndefined ∧ alternativeTranslations r ≠ VUndefined
  ∧ meaningExplanation r ≠ VUndefined.

(** The environment of a call: the credential of [process.env], the
    model endpoint and [JSON.parse] ([None] for a SyntaxError). *)
Context (API_KEY : option jsstring)
        (generateContent : GenerateRequest -> GenerateResponse)
        (JSON_parse : jsstring -> option value).

(** [!process.env.API_KEY] *)
Definition key_missing : bool :=
  match API_KEY with
  | None => true
  | Some k => negb (truthy k)
  end.

Definition emptyResult : Returned :=
  {| detectedLanguage := VStr [];
     correctedSourceText := VStr [];
     mainTranslation := VStr [];
     alternativeTranslations := VArr [];
     meaningExplanation := VStr [] |}.

(** The object literal built from the parse (lines 112-118); [None] when
    reading a property throws. *)
Definition fromParsed (text : jsstring) (result : value) : option Returned :=
  d ← get result (js "detectedLanguage");
  c ← get result (js "correctedSourceText");
  m ← get result (js "mainTranslation");
  a ← get result (js "alternativeTranslations");
  e ← get result (js "meaningExplanation");
  Some {| detectedLanguage := value_or d (VStr []);
          correctedSourceText := value_or c (VStr text);
          mainTranslation := value_or m (VStr []);
          alternativeTranslations := value_or a (VArr []);
          meaningExplanation := value_or e (VStr []) |}.

Definition API_KEY_MISSING : jsstring := js "API_KEY_MISSING".

Definition FAILED : jsstring :=
  js "Failed to get translation from AI. Please check your API key and try again.".

(** The [try] block with its [catch]: every throw inside becomes the
    one fixed error. *)
Definition callModel (text : jsstring) (request : GenerateRequest)
  : Settled Returned :=
  match generateContent request with
  | Throws => Rejected FAILED
  | Responds None => Rejected FAILED
  | Responds (Some responseText) =>
    match JSON_parse (trim responseText) with
    | None => Rejected FAILED
    | Some result =>
      match fromParsed text result with
      | None => Rejected FAILED
      | Some r => Resolved r
      end
    end
  end.

Definition request_for (modelName text : jsstring) (sourceLang targetLang : Language)
    (uiLang : I18n.UiLanguage) : GenerateRequest :=
  {| model := modelName;
     sourceLanguageName := languageMap sourceLang;
     targetLanguageName := languageMap targetLang;
     textToTranslate := text;
     uiLanguageName := or_else (languageMap (I18n.asLanguage uiLang)) (js "Turkish") |}.

(** What the object literal does for the properties that [props] lacks:
    the empty string, the empty array, and for [correctedSourceText]
    the text that was to be translated. *)
Definition defaulted (text : jsstring) (props : list (jsstring * value))
    (r : Returned) : Prop :=
  (lookup_prop (js "detectedLanguage") props = VUndefined →
   detectedLanguage r = VStr [])
  ∧ (lookup_prop (js "correctedSourceText") props = VUndefined →
     correctedSourceText r = VStr text)
  ∧ (lookup_prop (js "mainTranslation") props = VUndefined →
     mainTranslation r = VStr [])
  ∧ (lookup_prop (js "alternativeTranslations") props = VUndefined →
     alternativeTranslations r = VArr [])
  ∧ (lookup_prop (js "meaningExplanation") props = VUndefined →
     meaningExplanation r = VStr []).

(** [translateText]: how its promise settles, and the calls it made to
    the model. *)
Definition translateText (text : jsstring) (sourceLang targetLang : Language)
    (uiLang : I18n.UiLanguage) : Settled Returned * list GenerateRequest :=
  if key_missing then (Rejected API_KEY_MISSING, [])
  else if blank text then (Resolved emptyResult, [])
  else
    let request :=
      request_for (js "gemini-2.5-flash-lite") text sourceLang targetLang uiLang in
    (callModel text request, [request]).

(** The earlier revision of the function: the client is built once at
    module level and the credential is not looked at. *)
Definition translateText_early (text : jsstring) (sourceLang targetLang : Language)
    (uiLang : I18n.UiLanguage) : Settled Returned * list GenerateRequest :=
  if blank text then (Resolved emptyResult, [])
  else
    let request :=
      request_for (js "gemini-2.5-flash") text sourceLang targetLang uiLang in
    (callModel text request, [request]).

End Service.

Arguments VUndefined {number}.
Arguments VNull {number}.
Arguments VBool {number} b.
Arguments VStr {number} s.
Arguments Returned number : clear implicits.

End GeminiService.

(** ** App.tsx: the [useDebounce] hook

    The hook is run against a clock and the timer table of the runtime:
    [setTimeout] adds an entry under a fresh id, [clearTimeout] removes
    the entry of an id, and the runtime runs the callback of an entry no
    earlier than its due time. *)
Module useDebounce.

Record Timer : Type := {
  timer_id : N;
  due : N;
  payload : jsstring;      (* the [value] the callback closes over *)
}.

Record Hook : Type := {
  now : N;                   (* the clock *)
  timers : list Timer;       (* pending timeouts of the runtime *)
  nextId : N;                (* the id the next [setTimeout] returns *)
  mounted : bool;
  value : jsstring;          (* the [value] the effect last ran for *)
  debouncedValue : jsstring; (* the state the hook returns *)
  handler : option N;        (* the id held by the effect's cleanup *)
}.

(** [clearTimeout(id)] on the timer table. *)
Definition clearTimeout (id : option N) (ts : list Timer) : list Timer :=
  match id with
  | None => ts
  | Some i => filter (λ tm, timer_id tm ≠ i) ts
  end.

Definition find_timer (id : N) (ts : list Timer) : option Timer :=
  List.find (λ tm, bool_decide (timer_id tm = id)) ts.

Inductive Event : Type :=
| Elapse (d : N)          (* time passes *)
| Render (v : jsstring)   (* the component renders with [value = v] *)
| Fire (id : N)           (* the runtime picks the timeout [id] *)
| Unmount.                (* the component is torn down *)

Section Hook.

Variable delay : N.

(** The first render: [useState(value)], then the effect. *)
Definition mount (t0 : N) (v : jsstring) : Hook :=
  {| now := t0;
     timers := [ {| timer_id := 0; due := t0 + delay; payload := v |} ];
     nextId := 1;
     mounted := true;
     value := v;
     debouncedValue := v;
     handler := Some 0 |}.

(** A later render: the effect has [value] (and the constant [delay])
    as dependencies, so it re-runs, cleanup first, only when [value]
    changed. *)
Definition render (v : jsstring) (h : Hook) : Hook :=
  if negb (mounted h) then h
  else if decide (v = value h) then h
  else
    {| now := now h;
       timers := clearTimeout (handler h) (timers h)
                 ++ [ {| timer_id := nextId h; due := now h + delay; payload := v |} ];
       nextId := nextId h + 1;
       mounted := true;
       value := v;
       debouncedValue := debouncedValue h;
       handler := Some (nextId h) |}.

(** The runtime runs the callback of timeout [id], if it is still in the
    table and due: [setDebouncedValue(value)]. *)
Definition fire (id : N) (h : Hook) : Hook :=
  match find_timer id (timers h) with
  | None => h
  | Some tm =>
    if due tm <=? now h then
      {| now := now h;
         timers := clearTimeout (Some id) (timers h);
         nextId := nextId h;
         mounted := mounted h;
         value := value h;
         debouncedValue := if mounted h then payload tm else debouncedValue h;
         handler := handler h |}
    else h
  end.

(** Teardown runs the cleanup of the last effect. *)
Definition unmount (h : Hook) : Hook :=
  if negb (mounted h) then h
  else
    {| now := now h;
       timers := clearTimeout (handler h) (timers h);
       nextId := nextId h;
       mounted := false;
       value := value h;
       debouncedValue := debouncedValue h;
       handler := handler h |}.

Definition elapse (d : N) (h : Hook) : Hook :=
  {| now := now h + d;
     timers := timers h;
     nextId := nextId h;
     mounted := mounted h;
     value := value h;
     debouncedValue := debouncedValue h;
     handler := handler h |}.

Definition step (h : Hook) (ev : Event) : Hook :=
  match ev with
  | Elapse d => elapse d h
  | Render v => render v h
  | Fire id => fire id h
  | Unmount => unmount h
  end.

Definition run (evs : list Event) (h : Hook) : Hook := foldl step h evs.

End Hook.

(** What a trace says about the source value, independently of the
    hook: the clock, the value last rendered and the time it last
    changed. *)
Record Source : Type := {
  clock : N;
  current : jsstring;
  since : N;
}.

(** What ties the hook to the trace it has seen: its clock and value
    are the trace's, and the timer table is empty or holds the one
    timeout of the last effect, scheduled [delay] after the last change
    with the current value as payload. *)
Definition tracks (delay : N) (h : Hook) (src : Source) : Prop :=
  now h = clock src
  ∧ (mounted h = true → value h = current src)
  ∧ (timers h = []
     ∨ ∃ tm, timers h = [tm] ∧ mounted h = true
             ∧ handler h = Some (timer_id tm)
             ∧ payload tm = value h
             ∧ due tm = since src + delay).

Definition observe (s : Source) (ev : Event) : Source :=
  match ev with
  | Elapse d => {| clock := clock s + d; current := current s; since := since s |}
  | Render v =>
    if decide (v = current s) then s
    else {| clock := clock s; current := v; since := clock s |}
  | Fire _ | Unmount => s
  end.

Definition source (t0 : N) (v : jsstring) (evs : list Event) : Source :=
  foldl observe {| clock := t0; current := v; since := t0 |} evs.

End useDebounce.

(** ** Computations over a state that may throw

    Handlers, effects and the bodies of async functions are state
    transformers that finish normally or by a throw; an async function's
    promise settles accordingly. *)
Module Effect.

Definition Eff (St A : Type) : Type := St -> Settled A * St.

#[global] Instance Eff_ret {St} : MRet (Eff St) := λ A a s, (Resolved a, s).

#[global] Instance Eff_bind {St} : MBind (Eff St) := λ A B k m s,
  match m s with
  | (Resolved a, s') => k a s'
  | (Rejected e, s') => (Rejected e, s')
  end.

Definition read {St A} (f : St -> A) : Eff St A := λ s, (Resolved (f s), s).

Definition modify {St} (f : St -> St) : Eff St unit := λ s, (Resolved tt, f s).

(** Resuming after [await promise], the promise having settled as [o]. *)
Definition await {St A} (o : Settled A) : Eff St A := λ s, (o, s).

Definition when {St} (b : bool) (m : Eff St unit) : Eff St unit :=
  if b then m else mret tt.

(** [try { body } catch (e) { handler } finally { fin }], the thrown
    value being known by its [message]. *)
Definition try_catch_finally {St} (body : Eff St unit)
    (handler : jsstring -> Eff St unit) (fin : Eff St unit) : Eff St unit := λ s,
  let '(r1, s1) := body s in
  let '(r2, s2) :=
    match r1 with
    | Resolved _ => (r1, s1)
    | Rejected message => handler message s1
    end in
  let '(r3, s3) := fin s2 in
  match r3 with
  | Resolved _ => (r2, s3)
  | Rejected message => (Rejected message, s3)
  end.

End Effect.
Import Effect.

(** ** App.tsx: the component

    The component's state, its ref and the dependency lists React keeps
    for its two effects are one record.  [copiedStates] (the clipboard
    indicator) is left out. *)
Module App.

(** The arguments of one call of [translateText]. *)
Record Call : Type := {
  call_text : jsstring;
  call_sourceLang : Language;
  call_targetLang : Language;
  call_uiLang : I18n.UiLanguage;
}.

Record State : Type := {
  uiLang : I18n.UiLanguage;        (* the TranslationProvider's language *)
  sourceText : jsstring;
  sourceLang : Language;
  targetLang : Language;
  result : option Translation;
  isLoading : bool;
  error : jsstring;
  isMeaningVisible : bool;
  showAlternatives : bool;
  debouncedSourceText : jsstring;  (* what useDebounce returns *)
  requestGenerationRef : N;        (* its [.current] *)
  translationDeps : option (jsstring * Language * Language * I18n.UiLanguage);
                                   (* what the translation effect last ran for *)
  languageDeps : option (Language * Language);
                                   (* what the language effect last ran for *)
  calls : list Call;               (* calls of translateText so far, oldest first *)
}.

Definition set_uiLang (x : I18n.UiLanguage) (s : State) : State :=
  {| uiLang := x; sourceText := sourceText s; sourceLang := sourceLang s;
     targetLang := targetLang s; result := result s; isLoading := isLoading s;
     error := error s; isMeaningVisible := isMeaningVisible s;
     showAlternatives := showAlternatives s;
     debouncedSourceText := debouncedSourceText s;
     requestGenerationRef := requestGenerationRef s;
     translationDeps := translationDeps s; languageDeps := languageDeps s;
     calls := calls s |}.

Definition set_sourceText (x : jsstring) (s : State) : State :=
  {| uiLang := uiLang s; sourceText := x; sourceLang := sourceLang s;
     targetLang := targetLang s; result := result s; isLoading := isLoading s;
     error := error s; isMeaningVisible := isMeaningVisible s;
     showAlternatives := showAlternatives s;
     debouncedSourceText := debouncedSourceText s;
     requestGenerationRef := requestGenerationRef s;
     translationDeps := translationDeps s; languageDeps := languageDeps s;
     calls := calls s |}.

Definition set_sourceLang (x : Language) (s : State) : State :=
  {| uiLang := uiLang s; sourceText := sourceText s; sourceLang := x;
     targetLang := targetLang s; result := result s; isLoading := isLoading s;
     error := error s; isMeaningVisible := isMeaningVisible s;
     showAlternatives := showAlternatives s;
     debouncedSourceText := debouncedSourceText s;
     requestGenerationRef := requestGenerationRef s;
     translationDeps := translationDeps s; languageDeps := languageDeps s;
     calls := calls s |}.

Definition set_targetLang (x : Language) (s : State) : State :=
  {| uiLang := uiLang s; sourceText := sourceText s; sourceLang := sourceLang s;
     targetLang := x; result := result s; isLoading := isLoading s;
     error := error s; isMeaningVisible := isMeaningVisible s;
     showAlternatives := showAlternatives s;
     debouncedSourceText := debouncedSourceText s;
     requestGenerationRef := requestGenerationRef s;
     translationDeps := translationDeps s; languageDeps := languageDeps s;
     calls := calls s |}.

Definition set_result (x : option Translation) (s : State) : State :=
  {| uiLang := uiLang s; sourceText := sourceText s; sourceLang := sourceLang s;
     targetLang := targetLang s; result := x; isLoading := isLoading s;
     error := error s; isMeaningVisible := isMeaningVisible s;
     showAlternatives := showAlternatives s;
     debouncedSourceText := debouncedSourceText s;
     requestGenerationRef := requestGenerationRef s;
     translationDeps := translationDeps s; languageDeps := languageDeps s;
     calls := calls s |}.

Definition set_isLoading (x : bool) (s : State) : State :=
  {| uiLang := uiLang s; sourceText := sourceText s; sourceLang := sourceLang s;
     targetLang := targetLang s; result := result s; isLoading := x;
     error := error s; isMeaningVisible := isMeaningVisible s;
     showAlternatives := showAlternatives s;
     debouncedSourceText := debouncedSourceText s;
     requestGenerationRef := requestGenerationRef s;
     translationDeps := translationDeps s; languageDeps := languageDeps s;
     calls := calls s |}.

Definition set_error (x : jsstring) (s : State) : State :=
  {| uiLang := uiLang s; sourceText := sourceText s; sourceLang := sourceLang s;
     targetLang := targetLang s; result := result s; isLoading := isLoading s;
     error := x; isMeaningVisible := isMeaningVisible s;
     showAlternatives := showAlternatives s;
     debouncedSourceText := debouncedSourceText s;
     requestGenerationRef := requestGenerationRef s;
     translationDeps := translationDeps s; languageDeps := languageDeps s;
     calls := calls s |}.

Definition set_isMeaningVisible (x : bool) (s : State) : State :=
  {| uiLang := uiLang s; sourceText := sourceText s; sourceLang := sourceLang s;
     targetLang := targetLang s; result := result s; isLoading := isLoading s;
     error := error s; isMeaningVisible := x;
     showAlternatives := showAlternatives s;
     debouncedSourceText := debouncedSourceText s;
     requestGenerationRef := requestGenerationRef s;
     translationDeps := translationDeps s; languageDeps := languageDeps s;
     calls := calls s |}.

Definition set_showAlternatives (x : bool) (s : State) : State :=
  {| uiLang := uiLang s; sourceText := sourceText s; sourceLang := sourceLang s;
     targetLang := targetLang s; result := result s; isLoading := isLoading s;
     error := error s; isMeaningVisible := isMeaningVisible s;
     showAlternatives := x; debouncedSourceText := debouncedSourceText s;
     requestGenerationRef := requestGenerationRef s;
     translationDeps := translationDeps s; languageDeps := languageDeps s;
     calls := calls s |}.

Definition set_debouncedSourceText (x : jsstring) (s : State) : State :=
  {| uiLang := uiLang s; sourceText := sourceText s; sourceLang := sourceLang s;
     targetLang := targetLang s; result := result s; isLoading := isLoading s;
     error := error s; isMeaningVisible := isMeaningVisible s;
     showAlternatives := showAlternatives s; debouncedSourceText := x;
     requestGenerationRef := requestGenerationRef s;
     translationDeps := translationDeps s; languageDeps := languageDeps s;
     calls := calls s |}.

Definition set_requestGenerationRef (x : N) (s : State) : State :=
  {| uiLang := uiLang s; sourceText := sourceText s; sourceLang := sourceLang s;
     targetLang := targetLang s; result := result s; isLoading := isLoading s;
     error := error s; isMeaningVisible := isMeaningVisible s;
     showAlternatives := showAlternatives s;
     debouncedSourceText := debouncedSourceText s; requestGenerationRef := x;
     translationDeps := translationDeps s; languageDeps := languageDeps s;
     calls := calls s |}.

Definition set_translationDeps (x : option (jsstring * Language * Language * I18n.UiLanguage)) (s : State) : State :=
  {| uiLang := uiLang s; sourceText := sourceText s; sourceLang := sourceLang s;
     targetLang := targetLang s; result := result s; isLoading := isLoading s;
     error := error s; isMeaningVisible := isMeaningVisible s;
     showAlternatives := showAlternatives s;
     debouncedSourceText := debouncedSourceText s;
     requestGenerationRef := requestGenerationRef s; translationDeps := x;
     languageDeps := languageDeps s; calls := calls s |}.

Definition set_languageDeps (x : option (Language * Language)) (s : State) : State :=
  {| uiLang := uiLang s; sourceText := sourceText s; sourceLang := sourceLang s;
     targetLang := targetLang s; result := result s; isLoading := isLoading s;
     error := error s; isMeaningVisible := isMeaningVisible s;
     showAlternatives := showAlternatives s;
     debouncedSourceText := debouncedSourceText s;
     requestGenerationRef := requestGenerationRef s;
     translationDeps := translationDeps s; languageDeps := x; calls := calls s |}.

Definition set_calls (x : list Call) (s : State) : State :=
  {| uiLang := uiLang s; sourceText := sourceText s; sourceLang := sourceLang s;
     targetLang := targetLang s; result := result s; isLoading := isLoading s;
     error := error s; isMeaningVisible := isMeaningVisible s;
     showAlternatives := showAlternatives s;
     debouncedSourceText := debouncedSourceText s;
     requestGenerationRef := requestGenerationRef s;
     translationDeps := translationDeps s; languageDeps := languageDeps s;
     calls := x |}.

Abbreviation Eff := (Effect.Eff State).

Definition setUiLang x : Eff unit := modify (set_uiLang x).
Definition setSourceText x : Eff unit := modify (set_sourceText x).
Definition setSourceLang x : Eff unit := modify (set_sourceLang x).
Definition setTargetLang x : Eff unit := modify (set_targetLang x).
Definition setResult x : Eff unit := modify (set_result x).
Definition setIsLoading x : Eff unit := modify (set_isLoading x).
Definition setError x : Eff unit := modify (set_error x).
Definition setIsMeaningVisible x : Eff unit := modify (set_isMeaningVisible x).
Definition setShowAlternatives x : Eff unit := modify (set_showAlternatives x).

(** [useDebounce(sourceText, 750)] *)
Definition debounceDelay : N := 750.

(** *** [performTranslation] *)

(** What the part of [performTranslation] after the [await] closes over:
    [currentGeneration] and the [t] of the render, which is the [t] of
    that render's UI language. *)
Record Pending : Type := {
  currentGeneration : N;
  closure_uiLang : I18n.UiLanguage;
}.

(** [++requestGenerationRef.current] *)
Definition preIncrement : Eff N := λ s,
  let g := incr (requestGenerationRef s) in (Resolved g, set_requestGenerationRef g s).

(** The call [translateText(...)], which returns a promise at once. *)
Definition translateText (text : jsstring) (sl tl : Language) (ul : I18n.UiLanguage)
  : Eff unit :=
  modify (λ s, set_calls (calls s ++ [ {| call_text := text; call_sourceLang := sl;
                                         call_targetLang := tl; call_uiLang := ul |} ]) s).

(** Lines 32-44: up to the [await].  [None]: the function returned;
    [Some p]: it waits for the promise of the call it made. *)
Definition performTranslation : Eff (option Pending) :=
  text ← read debouncedSourceText;
  if blank text then
    setResult None ;;
    setError [] ;;
    mret None
  else
    g ← preIncrement;
    setIsLoading true ;;
    setError [] ;;
    sl ← read sourceLang;
    tl ← read targetLang;
    ul ← read uiLang;
    translateText text sl tl ul ;;
    mret (Some {| currentGeneration := g; closure_uiLang := ul |}).

Definition isCurrent (p : Pending) : Eff bool :=
  read (λ s, bool_decide (currentGeneration p = requestGenerationRef s)).

(** Lines 44-59: from the [await] on, the promise having settled as [o]. *)
Definition resume (p : Pending) (o : Settled Translation) : Eff unit :=
  try_catch_finally
    (translation ← await o;
     current ← isCurrent p;
     when current
       (setResult (Some translation) ;;
        setIsMeaningVisible false ;;
        setShowAlternatives false))
    (λ message,
     current ← isCurrent p;
     when current
       (setError (if decide (message = GeminiService.API_KEY_MISSING)
                  then I18n.t (closure_uiLang p) I18n.apiKeyMissingError
                  else I18n.t (closure_uiLang p) I18n.apiError) ;;
        setResult None))
    (current ← isCurrent p;
     when current (setIsLoading false)).

(** Promises settling one after the other, each resuming the
    [performTranslation] that waits for it. *)
Definition resume_all (cs : list (Pending * Settled Translation)) (s : State) : State :=
  foldl (λ st c, snd (resume c.1 c.2 st)) s cs.

(** *** The effects *)

Definition deps (s : State) : jsstring * Language * Language * I18n.UiLanguage :=
  (debouncedSourceText s, sourceLang s, targetLang s, uiLang s).

(** Lines 60-64: [performTranslation] is a new function exactly when one
    of [debouncedSourceText, sourceLang, targetLang, uiLang, t] changed
    ([t] changes with [uiLang] only), and the effect calls it exactly
    when it is a new function. *)
Definition translationEffect : Eff (option Pending) :=
  last ← read translationDeps;
  now ← read deps;
  modify (set_translationDeps (Some now)) ;;
  if decide (last = Some now) then mret None else performTranslation.

(** [sourceLang === 'ku' ? 'en' : 'ku'] *)
Definition newTargetLang (sl : Language) : Language :=
  if decide (sl = Ku) then En else Ku.

(** Lines 66-70. *)
Definition languageEffect : Eff unit :=
  last ← read languageDeps;
  sl ← read sourceLang;
  tl ← read targetLang;
  modify (set_languageDeps (Some (sl, tl))) ;;
  if decide (last = Some (sl, tl)) then mret tt
  else when (bool_decide (sl = tl)) (setTargetLang (newTargetLang sl)).

(** The effects of one render, in the order the component declares them. *)
Definition render : Eff (list Pending) :=
  p ← translationEffect;
  languageEffect ;;
  mret (option_list p).

(** Rendering until the effects change no more state that an effect
    depends on: the language effect sets state at most once, so a second
    render is the last one with an effect to run. *)
Definition settle : Eff (list Pending) :=
  ps1 ← render;
  ps2 ← render;
  mret (ps1 ++ ps2).

(** *** The handlers *)

(** Lines 72-76. *)
Definition handleSwapLanguages : Eff unit :=
  sl ← read sourceLang;
  tl ← read targetLang;
  r ← read result;
  setSourceLang tl ;;
  setTargetLang sl ;;
  setSourceText (or_else (from_option mainTranslation [] r) []).

(** Lines 78-82. *)
Definition handleCorrectionClick : Eff unit :=
  r ← read result;
  match r with
  | Some res => when (truthy (correctedSourceText res))
                  (setSourceText (correctedSourceText res))
  | None => mret tt
  end.

(** Lines 84-90. *)
Definition handleAlternativeClick (alternative : jsstring) : Eff unit :=
  r ← read result;
  match r with
  | Some res =>
    let currentMain := mainTranslation res in
    let newAlternatives :=
      filter (λ t, t ≠ alternative) (alternativeTranslations res) ++ [currentMain] in
    setResult (Some {| detectedLanguage := detectedLanguage res;
                       correctedSourceText := correctedSourceText res;
                       mainTranslation := alternative;
                       alternativeTranslations := newAlternatives;
                       meaningExplanation := meaningExplanation res |})
  | None => mret tt
  end.

(** *** The component over time *)

Inductive Event : Type :=
| TypeText (v : jsstring)               (* the textarea's onChange *)
| DebounceEmits (v : jsstring)          (* useDebounce returns a new value *)
| SelectSource (l : Language)
| SelectTarget (l : Language)
| SelectUi (l : I18n.UiLanguage)
| SwapLanguages
| CorrectionClick
| AlternativeClick (alternative : jsstring)
| ToggleMeaning
| ToggleAlternatives
| Settles (p : Pending) (o : Settled Translation).  (* a call's promise settles *)

Definition handle (ev : Event) : Eff unit :=
  match ev with
  | TypeText v => setSourceText v
  | DebounceEmits v => modify (set_debouncedSourceText v)
  | SelectSource l => setSourceLang l
  | SelectTarget l => setTargetLang l
  | SelectUi l => setUiLang l
  | SwapLanguages => handleSwapLanguages
  | CorrectionClick => handleCorrectionClick
  | AlternativeClick a => handleAlternativeClick a
  | ToggleMeaning => v ← read isMeaningVisible; setIsMeaningVisible (negb v)
  | ToggleAlternatives => v ← read showAlternatives; setShowAlternatives (negb v)
  | Settles p o => resume p o
  end.

(** An event, then the renders it causes. *)
Definition step (s : State) (ev : Event) : State :=
  snd ((handle ev ;; settle) s).

Definition run (evs : list Event) (s : State) : State := foldl step s evs.

(** The state of the first render, before its effects. *)
Definition initial : State :=
  {| uiLang := I18n.tr; sourceText := []; sourceLang := Ku; targetLang := Tr;
     result := None; isLoading := false; error := []; isMeaningVisible := false;
     showAlternatives := false; debouncedSourceText := []; requestGenerationRef := 0;
     translationDeps := None; languageDeps := None; calls := [] |}.

(** The component once mounted. *)
Definition mounted : State := snd (settle initial).

(** A state no effect has anything to do in: both dependency lists are
    those of the state, and the two languages differ. *)
Definition stable (s : State) : Prop :=
  translationDeps s = Some (deps s)
  ∧ languageDeps s = Some (sourceLang s, targetLang s)
  ∧ sourceLang s ≠ targetLang s.

(** The state changes of a dispatch (lines 39-44). *)
Definition dispatched (s : State) : State :=
  set_calls (calls s ++ [ {| call_text := debouncedSourceText s;
                             call_sourceLang := sourceLang s;
                             call_targetLang := targetLang s;
                             call_uiLang := uiLang s |} ])
    (set_error [] (set_isLoading true
       (set_requestGenerationRef (incr (requestGenerationRef s)) s))).

End App.

(** ** App.tsx, the earlier revision: [performTranslation] with the
    last request key

    Here the function itself remembers the key of the request it last
    dispatched, in [lastRequestRef], and there is no generation counter.
    Only the state the function touches is kept. *)
Module AppKeyed.

Record State : Type := {
  uiLang : I18n.UiLanguage;
  sourceLang : Language;
  targetLang : Language;
  result : option Translation;
  isLoading : bool;
  error : jsstring;
  isMeaningVisible : bool;
  debouncedSourceText : jsstring;
  lastRequestRef : jsstring;      (* its [.current] *)
  calls : list App.Call;
}.

Abbreviation Eff := (Effect.Eff State).

Definition setResult (x : option Translation) : Eff unit := modify (λ s,
  {| uiLang := uiLang s; sourceLang := sourceLang s; targetLang := targetLang s;
     result := x; isLoading := isLoading s; error := error s;
     isMeaningVisible := isMeaningVisible s;
     debouncedSourceText := debouncedSourceText s; lastRequestRef := lastRequestRef s;
     calls := calls s |}).

Definition setIsLoading (x : bool) : Eff unit := modify (λ s,
  {| uiLang := uiLang s; sourceLang := sourceLang s; targetLang := targetLang s;
     result := result s; isLoading := x; error := error s;
     isMeaningVisible := isMeaningVisible s;
     debouncedSourceText := debouncedSourceText s; lastRequestRef := lastRequestRef s;
     calls := calls s |}).

Definition setError (x : jsstring) : Eff unit := modify (λ s,
  {| uiLang := uiLang s; sourceLang := sourceLang s; targetLang := targetLang s;
     result := result s; isLoading := isLoading s; error := x;
     isMeaningVisible := isMeaningVisible s;
     debouncedSourceText := debouncedSourceText s; lastRequestRef := lastRequestRef s;
     calls := calls s |}).

Definition setIsMeaningVisible (x : bool) : Eff unit := modify (λ s,
  {| uiLang := uiLang s; sourceLang := sourceLang s; targetLang := targetLang s;
     result := result s; isLoading := isLoading s; error := error s;
     isMeaningVisible := x;
     debouncedSourceText := debouncedSourceText s; lastRequestRef := lastRequestRef s;
     calls := calls s |}).

Definition setLastRequest (x : jsstring) : Eff unit := modify (λ s,
  {| uiLang := uiLang s; sourceLang := sourceLang s; targetLang := targetLang s;
     result := result s; isLoading := isLoading s; error := error s;
     isMeaningVisible := isMeaningVisible s;
     debouncedSourceText := debouncedSourceText s; lastRequestRef := x;
     calls := calls s |}).

Definition translateText (text : jsstring) (sl tl : Language) (ul : I18n.UiLanguage)
  : Eff unit := modify (λ s,
  {| uiLang := uiLang s; sourceLang := sourceLang s; targetLang := targetLang s;
     result := result s; isLoading := isLoading s; error := error s;
     isMeaningVisible := isMeaningVisible s;
     debouncedSourceText := debouncedSourceText s; lastRequestRef := lastRequestRef s;
     calls := calls s ++ [ {| App.call_text := text; App.call_sourceLang := sl;
                              App.call_targetLang := tl; App.call_uiLang := ul |} ] |}).

(** [`${debouncedSourceText}:${sourceLang}:${targetLang}:${uiLang}`] *)
Definition requestKey (text : jsstring) (sl tl : Language) (ul : I18n.UiLanguage)
  : jsstring :=
  text ++ js ":" ++ code sl ++ js ":" ++ code tl ++ js ":" ++ code (I18n.asLanguage ul).

(** Up to the [await]: [None] when the function returned, [Some ul]
    (the UI language of the closure's [t]) when it waits for the call
    it made. *)
Definition performTranslation : Eff (option I18n.UiLanguage) :=
  text ← read debouncedSourceText;
  sl ← read sourceLang;
  tl ← read targetLang;
  ul ← read uiLang;
  last ← read lastRequestRef;
  let key := requestKey text sl tl ul in
  if blank text || bool_decide (last = key) then
    when (blank text) (setResult None ;; setError []) ;;
    mret None
  else
    setIsLoading true ;;
    setError [] ;;
    setLastRequest key ;;
    translateText text sl tl ul ;;
    mret (Some ul).

(** From the [await] on. *)
Definition resume (ul : I18n.UiLanguage) (o : Settled Translation) : Eff unit :=
  try_catch_finally
    (translation ← await o;
     setResult (Some translation) ;;
     setIsMeaningVisible false)
    (λ message,
     (if decide (message = GeminiService.API_KEY_MISSING)
      then setError (I18n.t ul I18n.apiKeyMissingError)
      else setError (I18n.t ul I18n.apiError)) ;;
     setResult None)
    (setIsLoading false).

(** The state of the first render. *)
Definition initial : State :=
  {| uiLang := I18n.tr; sourceLang := Auto; targetLang := Ku; result := None;
     isLoading := false; error := []; isMeaningVisible := false;
     debouncedSourceText := []; lastRequestRef := []; calls := [] |}.

End AppKeyed.

(** ** i18n.ts: [t] with its [params]

    No call of the component passes [params]; this is the function as
    the provider defines it. *)
Module I18nParams.

(** [s.startsWith(pat)] *)
Fixpoint startsWith (pat s : jsstring) : bool :=
  match pat, s with
  | [], _ => true
  | _ :: _, [] => false
  | p :: pat', c :: s' => bool_decide (p = c) && startsWith pat' s'
  end.

(** [s.indexOf(pat)], [None] for -1. *)
Fixpoint indexOf (pat s : jsstring) : option nat :=
  if startsWith pat s then Some 0%nat
  else match s with
       | [] => None
       | _ :: s' => S <$> indexOf pat s'
       end.

(** GetSubstitution for a string pattern (no captures): in the
    replacement, [$$] is a dollar sign, [$&] the matched text, [$`] the
    text before the match and [$'] the text after it; any other [$]
    stands for itself. *)
Fixpoint getSubstitution (matched before after template : jsstring) : jsstring :=
  match template with
  | [] => []
  | c :: rest =>
    if negb (c =? 36) then c :: getSubstitution matched before after rest
    else match rest with
         | [] => [c]
         | d :: rest' =>
           if d =? 36 then 36 :: getSubstitution matched before after rest'
           else if d =? 38 then matched ++ getSubstitution matched before after rest'
           else if d =? 96 then before ++ getSubstitution matched before after rest'
           else if d =? 39 then after ++ getSubstitution matched before after rest'
           else c :: getSubstitution matched before after rest
         end
    end.

(** [s.replace(pat, replacement)] with a string pattern: the first
    occurrence only. *)
Definition replace (pat replacement s : jsstring) : jsstring :=
  match indexOf pat s with
  | None => s
  | Some i =>
    let before := take i s in
    let after := drop (i + length pat) s in
    before ++ getSubstitution pat before after replacement ++ after
  end.

(** [`{${paramKey}}`] *)
Definition placeholder (paramKey : jsstring) : jsstring :=
  js "{" ++ paramKey ++ js "}".

(** [t(key, params)]; [params] is [None] when the argument is left
    out, and otherwise the object's entries in the order of
    [Object.keys]. *)
Definition t (language : I18n.UiLanguage) (key : I18n.TranslationKey)
    (params : option (list (jsstring * jsstring))) : jsstring :=
  let translation :=
    or_else (I18n.translations language key) (I18n.translations I18n.en key) in
  match params with
  | None => translation
  | Some entries =>
    foldl (λ translation entry, replace (placeholder entry.1) entry.2 translation)
      translation entries
  end.

End I18nParams.

(** ** App.tsx: [copyToClipboard]

    The [copiedStates] of the component with what the function touches
    outside it: the clipboard, the clock and the timer table of the
    runtime.  The timeouts it sets are never cleared. *)
Module Clipboard.

Record Timer : Type := {
  timer_id : N;
  due : N;
  target : jsstring;        (* the [id] the callback closes over *)
}.

Record State : Type := {
  copiedStates : gmap jsstring bool;
  written : list jsstring;  (* what was written to the clipboard, oldest first *)
  now : N;
  timers : list Timer;
  nextId : N;
}.

(** [copiedStates[id]] as the render reads it: truthy or not. *)
Definition shown (s : State) (id : jsstring) : bool :=
  default false (copiedStates s !! id).

(** Lines 92-97. *)
Definition copyToClipboard (text : option jsstring) (id : jsstring) (s : State)
  : State :=
  match text with
  | None => s
  | Some txt =>
    if negb (truthy txt) then s
    else
      {| copiedStates := <[id := true]> (copiedStates s);
         written := written s ++ [txt];
         now := now s;
         timers := timers s ++
                   [ {| timer_id := nextId s; due := now s + 2000; target := id |} ];
         nextId := nextId s + 1 |}
  end.

(** The runtime runs the callback of timeout [tid], if it is in the
    table and due: [setCopiedStates(prev => ({ ...prev, [id]: false }))]. *)
Definition fire (tid : N) (s : State) : State :=
  match List.find (λ tm, bool_decide (timer_id tm = tid)) (timers s) with
  | None => s
  | Some tm =>
    if due tm <=? now s then
      {| copiedStates := <[target tm := false]> (copiedStates s);
         written := written s;
         now := now s;
         timers := filter (λ tm', timer_id tm' ≠ tid) (timers s);
         nextId := nextId s |}
    else s
  end.

Definition elapse (d : N) (s : State) : State :=
  {| copiedStates := copiedStates s; written := written s; now := now s + d;
     timers := timers s; nextId := nextId s |}.

Inductive Event : Type :=
| Copy (text : option jsstring) (id : jsstring)
| Elapse (d : N)
| Fire (tid : N).

Definition step (s : State) (ev : Event) : State :=
  match ev with
  | Copy text id => copyToClipboard text id s
  | Elapse d => elapse d s
  | Fire tid => fire tid s
  end.

Definition run (evs : list Event) (s : State) : State := foldl step s evs.

(** [useState<Record<string, boolean>>({})], at time [t0]. *)
Definition initial (t0 : N) : State :=
  {| copiedStates := ∅; written := []; now := t0; timers := []; nextId := 0 |}.

(** What the component keeps: timeout ids are fresh and distinct, every
    timeout is due within 2000, and every indicator that is on has a
    timeout pending that turns it off. *)
Definition well_timed (s : State) : Prop :=
  NoDup (timer_id <$> timers s)
  ∧ (∀ tm, tm ∈ timers s → timer_id tm < nextId s ∧ due tm <= now s + 2000)
  ∧ (∀ id, copiedStates s !! id = Some true →
       ∃ tm, tm ∈ timers s ∧ target tm = id).

(** The runtime runs the callbacks of all the timeouts in the table. *)
Definition flush (s : State) : State :=
  foldl (λ s tm, fire (timer_id tm) s) s (timers s).

(** The texts a sequence of events hands to [copyToClipboard] that are
    not falsy, in order. *)
Definition copied (evs : list Event) : list jsstring :=
  omap (λ ev, match ev with
              | Copy (Some txt) _ => if truthy txt then Some txt else None
              | _ => None
              end) evs.

End Clipboard.

(** ** App.tsx: the calls a render makes

    Helpers to state what the effects of a render add to the log of
    calls. *)
Module AppCalls.
Import App.

(** The call [performTranslation] makes in state [s]. *)
Definition call_of (s : State) : Call :=
  {| call_text := debouncedSourceText s; call_sourceLang := sourceLang s;
     call_targetLang := targetLang s; call_uiLang := uiLang s |}.

(** The calls the translation effect makes in a render of [s]: one when
    a dependency changed and the debounced text is not blank. *)
Definition due_calls (s : State) : list Call :=
  if decide (translationDeps s = Some (deps s)) then []
  else if blank (debouncedSourceText s) then []
  else [call_of s].

(** The generation counts the calls (up to where a double stops
    counting), and no call was made with a blank text. *)
Definition accounted (s : State) : Prop :=
  requestGenerationRef s = N.min (N.of_nat (length (calls s))) MAX_EXACT
  ∧ ∀ c, c ∈ calls s → blank (call_text c) = false.

End AppCalls.

(** * Properties *)

(** ** The service *)
Section ServiceFacts.

Import GeminiService.

Context {number : Type} (number_truthy : number -> bool).

Lemma blank_trim (text : jsstring) : trim text = [] → blank text = true.
Proof. unfold blank. intros ->. reflexivity. Qed.

Lemma key_present (k : jsstring) : k ≠ [] → key_missing (Some k) = false.
Proof. destruct k; [done | reflexivity]. Qed.

Lemma value_or_defined (a b : value (number := number)) :
  b ≠ VUndefined → value_or number_truthy a b ≠ VUndefined.
Proof.
  intros Hb. unfold value_or. destruct a; cbn; try done.
  all: match goal with |- context [if ?c then _ else _] => destruct c end; done.
Qed.

Lemma fromParsed_object (text : jsstring) (props : list (jsstring * value)) :
  fromParsed number_truthy text (VObj props) =
  Some {| detectedLanguage :=
            value_or number_truthy (lookup_prop (js "detectedLanguage") props) (VStr []);
          correctedSourceText :=
            value_or number_truthy (lookup_prop (js "correctedSourceText") props) (VStr text);
          mainTranslation :=
            value_or number_truthy (lookup_prop (js "mainTranslation") props) (VStr []);
          alternativeTranslations :=
            value_or number_truthy (lookup_prop (js "alternativeTranslations") props) (VArr []);
          meaningExplanation :=
            value_or number_truthy (lookup_prop (js "meaningExplanation") props) (VStr []) |}.
Proof. reflexivity. Qed.

Lemma fromParsed_defined text result r :
  fromParsed number_truthy text result = Some r → all_defined r.
Proof.
  unfold fromParsed. intros H.
  destruct (get result (js "detectedLanguage")) as [d|]; [|done].
  destruct (get result (js "correctedSourceText")) as [c|]; [|done].
  destruct (get result (js "mainTranslation")) as [m|]; [|done].
  destruct (get result (js "alternativeTranslations")) as [a|]; [|done].
  destruct (get result (js "meaningExplanation")) as [e|]; [|done].
  cbn in H. injection H as <-. unfold all_defined; cbn.
  repeat split; apply value_or_defined; done.
Qed.

Lemma callModel_resolved generateContent JSON_parse text request r :
  callModel number_truthy generateContent JSON_parse text request = Resolved r →
  all_defined r.
Proof.
  unfold callModel. intros H.
  destruct (generateContent request) as [|[responseText|]]; try done.
  destruct (JSON_parse (trim responseText)) as [result|]; try done.
  destruct (fromParsed number_truthy text result) as [r'|] eqn:E; try done.
  injection H as <-. eapply fromParsed_defined; eassumption.
Qed.

Lemma callModel_rejected generateContent JSON_parse text request m :
  callModel number_truthy generateContent JSON_parse text request = Rejected m →
  m = FAILED.
Proof.
  unfold callModel. intros H.
  destruct (generateContent request) as [|[responseText|]]; try congruence.
  destruct (JSON_parse (trim responseText)) as [result|]; try congruence.
  destruct (fromParsed number_truthy text result) as [r'|]; congruence.
Qed.

(** C10 — The service's empty-text short-circuit.  For a text that
    trims to the empty string, [translateText] with the credential
    present resolves with the result whose string fields are all empty
    and whose alternatives are the empty array, and calls the model
    zero times; the earlier revision of the function does so whatever
    the credential.  With the credential missing the function rejects
    with [API_KEY_MISSING] even for such a text, the check coming first. *)
Theorem translateText_empty_text_short_circuit
    (API_KEY : option jsstring) (generateContent : GenerateRequest -> GenerateResponse)
    (JSON_parse : jsstring -> option value) (text : jsstring)
    (sourceLang targetLang : Language) (uiLang : I18n.UiLanguage) :
  trim text = [] →
  let empty : Returned number :=
    {| detectedLanguage := VStr []; correctedSourceText := VStr [];
       mainTranslation := VStr []; alternativeTranslations := VArr [];
       meaningExplanation := VStr [] |} in
  (∀ k, API_KEY = Some k → k ≠ [] →
     translateText number_truthy API_KEY generateContent JSON_parse
       text sourceLang targetLang uiLang = (Resolved empty, []))
  ∧ translateText_early number_truthy generateContent JSON_parse
      text sourceLang targetLang uiLang = (Resolved empty, [])
  ∧ (key_missing API_KEY = true →
     translateText number_truthy API_KEY generateContent JSON_parse
       text sourceLang targetLang uiLang = (Rejected (js "API_KEY_MISSING"), [])).
Proof.
  intros Htrim empty. apply blank_trim in Htrim.
  unfold translateText, translateText_early. rewrite Htrim. split_and!.
  - intros k -> Hk. by rewrite key_present.
  - done.
  - by intros ->.
Qed.

Lemma callModel_object generateContent JSON_parse text request responseText props :
  generateContent request = Responds (Some responseText) →
  JSON_parse (trim responseText) = Some (VObj props) →
  ∃ r, callModel number_truthy generateContent JSON_parse text request = Resolved r
     ∧ defaulted text props r ∧ all_defined r.
Proof.
  intros Hg Hp. unfold callModel. rewrite Hg, Hp, fromParsed_object.
  eexists. split; [reflexivity|]. split.
  - unfold defaulted. cbn [detectedLanguage correctedSourceText mainTranslation
                           alternativeTranslations meaningExplanation].
    split_and!; by intros ->.
  - unfold all_defined; cbn. split_and!; by apply value_or_defined.
Qed.

(** C7, as the code has it — Response defaulting.  When the model's
    answer parses to an object, [translateText] (in both revisions)
    resolves with a record in which a missing [detectedLanguage],
    [mainTranslation] or [meaningExplanation] is the empty string and a
    missing [alternativeTranslations] the empty array, while a missing
    [correctedSourceText] is the text that was to be translated; and
    whenever [translateText] resolves, no field of the record it
    resolves with is undefined. *)
Theorem translateText_defaults_missing_fields :
  (∀ API_KEY generateContent JSON_parse text sourceLang targetLang uiLang
     responseText props,
     key_missing API_KEY = false →
     blank text = false →
     generateContent
       (request_for (js "gemini-2.5-flash-lite") text sourceLang targetLang uiLang)
     = Responds (Some responseText) →
     JSON_parse (trim responseText) = Some (VObj props) →
     ∃ r, fst (translateText number_truthy API_KEY generateContent JSON_parse
                 text sourceLang targetLang uiLang) = Resolved r
        ∧ defaulted text props r ∧ all_defined r)
  ∧ (∀ generateContent JSON_parse text sourceLang targetLang uiLang
       responseText props,
       blank text = false →
       generateContent
         (request_for (js "gemini-2.5-flash") text sourceLang targetLang uiLang)
       = Responds (Some responseText) →
       JSON_parse (trim responseText) = Some (VObj props) →
       ∃ r, fst (translateText_early number_truthy generateContent JSON_parse
                   text sourceLang targetLang uiLang) = Resolved r
          ∧ defaulted text props r ∧ all_defined r)
  ∧ (∀ API_KEY generateContent JSON_parse text sourceLang targetLang uiLang r,
       fst (translateText number_truthy API_KEY generateContent JSON_parse
              text sourceLang targetLang uiLang) = Resolved r →
       all_defined r).
Proof.
  split_and!.
  - intros API_KEY generateContent JSON_parse text sl tl ul responseText props
      Hkey Hblank Hg Hp.
    unfold translateText. rewrite Hkey, Hblank. cbn [fst].
    by eapply callModel_object.
  - intros generateContent JSON_parse text sl tl ul responseText props Hblank Hg Hp.
    unfold translateText_early. rewrite Hblank. cbn [fst].
    by eapply callModel_object.
  - intros API_KEY generateContent JSON_parse text sl tl ul r.
    unfold translateText. destruct (key_missing API_KEY); [done|].
    destruct (blank text); cbn.
    + intros [= <-]. unfold all_defined, emptyResult; cbn. by split_and!.
    + apply callModel_resolved.
Qed.

(** Every rejection of [translateText] carries one of its two messages. *)
Lemma translateText_rejections API_KEY generateContent JSON_parse
    text sourceLang targetLang uiLang m :
  fst (translateText number_truthy API_KEY generateContent JSON_parse
         text sourceLang targetLang uiLang) = Rejected m →
  m = API_KEY_MISSING ∨ m = FAILED.
Proof.
  unfold translateText. destruct (key_missing API_KEY); cbn.
  - intros [= <-]. by left.
  - destruct (blank text); cbn; [done|].
    intros H. right. by eapply callModel_rejected.
Qed.

Lemma translateText_key_missing API_KEY generateContent JSON_parse
    text sourceLang targetLang uiLang :
  key_missing API_KEY = true →
  translateText number_truthy API_KEY generateContent JSON_parse
    text sourceLang targetLang uiLang = (Rejected API_KEY_MISSING, []).
Proof. unfold translateText. by intros ->. Qed.

End ServiceFacts.

Lemma FAILED_is_not_the_key_error :
  GeminiService.FAILED ≠ GeminiService.API_KEY_MISSING.
Proof. vm_compute. discriminate. Qed.

Lemma translateText_empty_text_short_circuit_witness :
  let number_truthy := λ n : N, negb (n =? 0) in
  let generateContent := λ _ : GeminiService.GenerateRequest, GeminiService.Throws in
  let JSON_parse := λ _ : jsstring, @None (GeminiService.value (number := N)) in
  let empty : GeminiService.Returned N :=
    {| detectedLanguage := GeminiService.VStr [];
       correctedSourceText := GeminiService.VStr [];
       mainTranslation := GeminiService.VStr [];
       alternativeTranslations := GeminiService.VArr [];
       meaningExplanation := GeminiService.VStr [] |} in
  GeminiService.translateText number_truthy (Some (js "secret"))
    generateContent JSON_parse (js "  ") Ku En I18n.en = (Resolved empty, [])
  ∧ GeminiService.translateText number_truthy None
      generateContent JSON_parse (js "  ") Ku En I18n.en
    = (Rejected (js "API_KEY_MISSING"), []).
Proof.
  intros number_truthy generateContent JSON_parse empty.
  assert (trim (js "  ") = []) as Htrim by (vm_compute; reflexivity).
  split.
  - refine (proj1 (translateText_empty_text_short_circuit number_truthy
                     (Some (js "secret")) generateContent JSON_parse
                     (js "  ") Ku En I18n.en Htrim) (js "secret") _ _).
    + reflexivity.
    + vm_compute. discriminate.
  - refine (proj2 (proj2 (translateText_empty_text_short_circuit number_truthy
                     None generateContent JSON_parse
                     (js "  ") Ku En I18n.en Htrim)) _).
    reflexivity.
Defined.

(** The claim of C7 as it was stated fails on [correctedSourceText]:
    the model answers [{}], and the field of the result is the input
    text, not the empty string. *)
Lemma translateText_defaults_corrected_text_to_the_input :
  let number_truthy := λ n : N, negb (n =? 0) in
  let generateContent := λ _ : GeminiService.GenerateRequest,
    GeminiService.Responds (Some (js "{}")) in
  let JSON_parse := λ s : jsstring,
    if decide (s = js "{}") then Some (GeminiService.VObj []) else None in
  GeminiService.get (GeminiService.VObj (number := N) [])
    (js "correctedSourceText") = Some GeminiService.VUndefined
  ∧ ∃ r, fst (GeminiService.translateText number_truthy (Some (js "secret"))
                generateContent JSON_parse (js "rojbas") Ku En I18n.en)
         = Resolved r
       ∧ correctedSourceText r = GeminiService.VStr (js "rojbas")
       ∧ correctedSourceText r ≠ GeminiService.VStr [].
Proof.
  split; [reflexivity|]. eexists. split; [vm_compute; reflexivity|].
  split; [vm_compute; reflexivity | vm_compute; discriminate].
Qed.

Lemma translateText_defaults_missing_fields_witness :
  let number_truthy := λ n : N, negb (n =? 0) in
  let generateContent := λ _ : GeminiService.GenerateRequest,
    GeminiService.Responds (Some (js "{}")) in
  let JSON_parse := λ s : jsstring,
    if decide (s = js "{}") then Some (GeminiService.VObj []) else None in
  (∃ r, fst (GeminiService.translateText number_truthy (Some (js "secret"))
               generateContent JSON_parse (js "rojbas") Ku En I18n.en) = Resolved r
      ∧ detectedLanguage r = GeminiService.VStr []
      ∧ correctedSourceText r = GeminiService.VStr (js "rojbas")
      ∧ mainTranslation r = GeminiService.VStr []
      ∧ alternativeTranslations r = GeminiService.VArr []
      ∧ meaningExplanation r = GeminiService.VStr [])
  ∧ (∃ r, fst (GeminiService.translateText_early number_truthy
                 generateContent JSON_parse (js "rojbas") Ku En I18n.en) = Resolved r
        ∧ correctedSourceText r = GeminiService.VStr (js "rojbas"))
  ∧ GeminiService.all_defined (GeminiService.emptyResult (number := N)).
Proof.
  intros number_truthy generateContent JSON_parse. split_and!.
  - destruct (proj1 (translateText_defaults_missing_fields number_truthy)
                (Some (js "secret")) generateContent JSON_parse (js "rojbas")
                Ku En I18n.en (js "{}") [])
      as (r & Hr & (Hd & Hc & Hm & Ha & He) & _).
    + reflexivity.
    + vm_compute. reflexivity.
    + reflexivity.
    + vm_compute. reflexivity.
    + exists r. split; [exact Hr|].
      split; [apply Hd; reflexivity|]. split; [apply Hc; reflexivity|].
      split; [apply Hm; reflexivity|]. split; [apply Ha; reflexivity|].
      apply He; reflexivity.
  - destruct (proj1 (proj2 (translateText_defaults_missing_fields number_truthy))
                generateContent JSON_parse (js "rojbas")
                Ku En I18n.en (js "{}") [])
      as (r & Hr & (_ & Hc & _) & _).
    + vm_compute. reflexivity.
    + reflexivity.
    + vm_compute. reflexivity.
    + exists r. split; [exact Hr | apply Hc; reflexivity].
  - apply (proj2 (proj2 (translateText_defaults_missing_fields number_truthy))
             (Some (js "secret")) (λ _, GeminiService.Throws) (λ _, None)
             (js "  ") Ku En I18n.en).
    vm_compute. reflexivity.
Defined.

(** ** The debouncer *)
Section DebounceFacts.
Import useDebounce.

Variable delay : N.

Lemma clear_own_timer (h : Hook) src :
  tracks delay h src → clearTimeout (handler h) (timers h) = [].
Proof.
  intros (_ & _ & [E | (tm & E & _ & Hh & _)]); rewrite E.
  - unfold clearTimeout. by destruct (handler h).
  - rewrite Hh. unfold clearTimeout.
    rewrite filter_cons_False by (intros Hne; by apply Hne). done.
Qed.

Lemma mount_tracks t0 v :
  tracks delay (mount delay t0 v) {| clock := t0; current := v; since := t0 |}.
Proof. unfold tracks; cbn. split_and!; [done..|]. right. eexists. by split_and!. Qed.

Lemma fire_timer id (h : Hook) src tm :
  tracks delay h src → find_timer id (timers h) = Some tm →
  timers h = [tm] ∧ timer_id tm = id ∧ mounted h = true
  ∧ payload tm = value h ∧ due tm = since src + delay.
Proof.
  intros (_ & _ & [E | (tm' & E & Hm & Hh & Hp & Hd)]); rewrite E; cbn; [done|].
  unfold find_timer. cbn. case_bool_decide; [|done]. intros [= <-]. done.
Qed.

Lemma step_tracks h src ev :
  tracks delay h src → tracks delay (step delay h ev) (observe src ev).
Proof.
  intros Ht. pose proof Ht as (Hn & Hv & Htm). destruct ev as [d|v|id|]; cbn.
  - unfold tracks; cbn. split_and!; [by rewrite Hn | done | done].
  - unfold render. destruct (mounted h) eqn:Hm; cbn.
    + rewrite <- (Hv eq_refl). destruct (decide (v = value h)) as [->|Hne]; [done|].
      unfold tracks; cbn. split_and!; [done..|]. right.
      rewrite (clear_own_timer h src Ht). eexists. split_and!; try done. cbn. by rewrite Hn.
    + destruct Htm as [E | (tm & _ & ? & _)]; [|congruence].
      destruct (decide (v = current src)); [done|].
      unfold tracks; cbn. split_and!; [done | by rewrite Hm | by left].
  - unfold fire. destruct (find_timer id (timers h)) as [tm|] eqn:E; [|done].
    destruct (due tm <=? now h); [|done].
    apply (fire_timer _ _ _ _ Ht) in E as (E & Hid & _).
    unfold tracks; cbn. split_and!; [done..|]. left.
    rewrite E. unfold clearTimeout.
    rewrite filter_cons_False by (intros Hne; by apply Hne). done.
  - unfold unmount. destruct (mounted h) eqn:Hm; cbn; [|done].
    unfold tracks; cbn. split_and!; [done..|]. left.
    apply (clear_own_timer h src Ht).
Qed.

Lemma run_tracks evs h src :
  tracks delay h src → tracks delay (run delay evs h) (foldl observe src evs).
Proof.
  revert h src. induction evs as [|ev evs IH]; intros h src Ht; [done|].
  cbn. apply IH, step_tracks, Ht.
Qed.

Lemma mounted_run_tracks t0 v evs :
  tracks delay (run delay evs (mount delay t0 v)) (source t0 v evs).
Proof. apply run_tracks, mount_tracks. Qed.

Lemma step_emits h src ev :
  tracks delay h src →
  debouncedValue (step delay h ev) ≠ debouncedValue h →
  (∃ id, ev = Fire id)
  ∧ since src + delay <= now h
  ∧ debouncedValue (step delay h ev) = current src.
Proof.
  intros Ht. destruct ev as [d|v|id|]; cbn.
  - done.
  - unfold render. destruct (negb _); [done|]. destruct (decide _); done.
  - unfold fire. destruct (find_timer id (timers h)) as [tm|] eqn:E; [|done].
    destruct (due tm <=? now h) eqn:Hdue; [|done].
    apply (fire_timer _ _ _ _ Ht) in E as (E & Hid & Hm & Hp & Hd).
    cbn. rewrite Hm. intros _. destruct Ht as (_ & Hv & _).
    split_and!; [eauto | apply N.leb_le in Hdue; lia | by rewrite Hp, Hv].
  - unfold unmount. destruct (negb _); done.
Qed.

(** Once unmounted with an empty timer table, nothing changes the value. *)
Lemma unmounted_step h ev :
  mounted h = false → timers h = [] →
  mounted (step delay h ev) = false ∧ timers (step delay h ev) = []
  ∧ debouncedValue (step delay h ev) = debouncedValue h.
Proof.
  intros Hm Ht. destruct ev as [d|v|id|]; cbn.
  - done.
  - unfold render. by rewrite Hm.
  - unfold fire. by rewrite Ht.
  - unfold unmount. by rewrite Hm.
Qed.

Lemma unmounted_frozen evs h :
  mounted h = false → timers h = [] →
  debouncedValue (run delay evs h) = debouncedValue h.
Proof.
  revert h. induction evs as [|ev evs IH]; intros h Hm Ht; [done|].
  destruct (unmounted_step h ev Hm Ht) as (Hm' & Ht' & <-).
  by apply IH.
Qed.

Lemma unmount_clears h src :
  tracks delay h src →
  mounted (unmount h) = false ∧ timers (unmount h) = []
  ∧ debouncedValue (unmount h) = debouncedValue h.
Proof.
  intros Ht. unfold unmount. destruct (mounted h) eqn:Hm; cbn.
  - split_and!; [done | apply (clear_own_timer h src Ht) | done].
  - rewrite Hm. destruct Ht as (_ & _ & [E | (tm & _ & ? & _)]); [done | congruence].
Qed.

End DebounceFacts.

Section DebounceContract.
Import useDebounce.

(** C9 — Debounce contract, for the delay of 750 the component uses.
    Over every sequence of renders, elapsing time, timer firings and
    teardown: the debounced value changes only when a timer fires, at a
    time at least 750 after the source value last changed, and it
    becomes the current source value; a render with a new value leaves
    exactly one pending timeout, the new one, due 750 later (the one
    scheduled before is cancelled); teardown empties the timer table and
    the value never changes afterwards; and once the pending timeout is
    due, firing it makes the debounced value the current one. *)
Theorem debounce_contract (t0 : N) (v0 : jsstring) (evs : list Event) :
  let h := run App.debounceDelay evs (mount App.debounceDelay t0 v0) in
  let src := source t0 v0 evs in
  (∀ ev, debouncedValue (step App.debounceDelay h ev) ≠ debouncedValue h →
     (∃ id, ev = Fire id)
     ∧ since src + 750 <= now h
     ∧ now h = clock src
     ∧ debouncedValue (step App.debounceDelay h ev) = current src)
  ∧ (∀ v, mounted h = true → v ≠ value h →
       timers (render App.debounceDelay v h) =
       [ {| timer_id := nextId h; due := now h + 750; payload := v |} ])
  ∧ (∀ evs',
       timers (unmount h) = []
       ∧ debouncedValue (run App.debounceDelay evs' (unmount h)) = debouncedValue h)
  ∧ (∀ tm, mounted h = true → tm ∈ timers h → due tm <= now h →
       debouncedValue (fire (timer_id tm) h) = current src).
Proof.
  intros h src.
  pose proof (mounted_run_tracks App.debounceDelay t0 v0 evs) as Ht.
  fold h src in Ht. split_and!.
  - intros ev Hev.
    destruct (step_emits App.debounceDelay h src ev Ht Hev) as (Hf & Hq & Hv).
    destruct Ht as (Hn & _). by split_and!.
  - intros v Hm Hv. unfold render. rewrite Hm. cbn.
    rewrite decide_False by done. cbn.
    by rewrite (clear_own_timer App.debounceDelay h src Ht).
  - intros evs'. destruct (unmount_clears App.debounceDelay h src Ht) as (Hm & Hc & Hd).
    split; [done|]. by rewrite unmounted_frozen.
  - intros tm Hm Hin Hdue.
    destruct Ht as (_ & Hv & [E | (tm' & E & _ & _ & Hp & _)]); rewrite E in *.
    + by apply elem_of_nil in Hin.
    + apply list_elem_of_singleton in Hin as ->.
      unfold fire, find_timer. rewrite E. cbn.
      rewrite bool_decide_true by done. apply N.leb_le in Hdue. rewrite Hdue. cbn.
      rewrite Hm, Hp. by apply Hv.
Qed.

Lemma debounce_contract_witness :
  let evs := [Render (js "a"); Elapse 750] in
  let h0 := mount App.debounceDelay 0 [] in
  let h := run App.debounceDelay evs h0 in
  let tm := {| timer_id := 1; due := 750; payload := js "a" |} in
  (since (source 0 [] evs) + 750 <= now h
   ∧ debouncedValue (step App.debounceDelay h (Fire 1)) = js "a")
  ∧ timers (render App.debounceDelay (js "a") h0) = [tm]
  ∧ debouncedValue (fire 1 h) = js "a".
Proof.
  intros evs h0 h tm. split; [|split].
  - destruct (proj1 (debounce_contract 0 [] evs) (Fire 1)) as (_ & Hq & _ & Hv).
    + vm_compute. discriminate.
    + split; [exact Hq|]. etrans; [exact Hv|]. vm_compute. reflexivity.
  - etrans; [apply (proj1 (proj2 (debounce_contract 0 [] [])) (js "a"))|].
    + reflexivity.
    + vm_compute. discriminate.
    + vm_compute. reflexivity.
  - etrans; [apply (proj2 (proj2 (proj2 (debounce_contract 0 [] evs))) tm)|].
    + reflexivity.
    + vm_compute. apply list_elem_of_singleton. reflexivity.
    + vm_compute. discriminate.
    + vm_compute. reflexivity.
Defined.

(** The scenario of two rapid edits: "r", then "ro" 100 later.  At 750
    after the first edit the timeout of "r" is gone and that of "ro" is
    not yet due, so nothing is emitted; at 750 after the second, "ro"
    is. *)
Example debounce_two_rapid_edits :
  let typed := [Render (js "r"); Elapse 100; Render (js "ro"); Elapse 650] in
  let h750 := run App.debounceDelay (typed ++ [Fire 1; Fire 2])
                (mount App.debounceDelay 0 []) in
  let h850 := run App.debounceDelay [Elapse 100; Fire 2] h750 in
  debouncedValue h750 = [] ∧ debouncedValue h850 = js "ro" ∧ timers h850 = [].
Proof. vm_compute. done. Qed.

End DebounceContract.

(** ** The component *)

(** Unfolds the computations down to functions on states. *)
Ltac eff :=
  unfold App.resume, App.isCurrent, App.performTranslation, App.preIncrement,
    App.translateText, App.setResult, App.setIsLoading, App.setError,
    App.setIsMeaningVisible, App.setShowAlternatives,
    try_catch_finally, await, read, modify, when,
    mbind, Eff_bind, mret, Eff_ret in *.

Section AppFacts.
Import App.

Lemma resume_stale p o s :
  currentGeneration p ≠ requestGenerationRef s → resume p o s = (Resolved tt, s).
Proof.
  intros H. eff. destruct o; cbn; rewrite !bool_decide_false by done; reflexivity.
Qed.

Lemma resume_current p o s :
  currentGeneration p = requestGenerationRef s →
  resume p o s =
  (Resolved tt,
   match o with
   | Resolved tr =>
     set_isLoading false (set_showAlternatives false
       (set_isMeaningVisible false (set_result (Some tr) s)))
   | Rejected m =>
     set_isLoading false (set_result None
       (set_error (if decide (m = GeminiService.API_KEY_MISSING)
                   then I18n.t (closure_uiLang p) I18n.apiKeyMissingError
                   else I18n.t (closure_uiLang p) I18n.apiError) s))
   end).
Proof.
  intros H. eff. destruct o; cbn; rewrite !bool_decide_true by done; reflexivity.
Qed.

Lemma performTranslation_blank s :
  blank (debouncedSourceText s) = true →
  performTranslation s = (Resolved None, set_error [] (set_result None s)).
Proof. intros H. eff. cbn. rewrite H. reflexivity. Qed.

Lemma performTranslation_dispatch s :
  blank (debouncedSourceText s) = false →
  performTranslation s =
  (Resolved (Some {| currentGeneration := incr (requestGenerationRef s);
                     closure_uiLang := uiLang s |}), dispatched s).
Proof. intros H. eff. cbn. rewrite H. reflexivity. Qed.

Lemma set_translationDeps_same s d :
  translationDeps s = d → set_translationDeps d s = s.
Proof. intros <-. destruct s; reflexivity. Qed.

Lemma translationEffect_spec s :
  translationEffect s =
  if decide (translationDeps s = Some (deps s)) then (Resolved None, s)
  else performTranslation (set_translationDeps (Some (deps s)) s).
Proof.
  unfold translationEffect, read, modify, mbind, Eff_bind, mret, Eff_ret.
  destruct (decide _) as [E|E]; [|reflexivity].
  by rewrite set_translationDeps_same.
Qed.

Lemma performTranslation_frame s :
  let s' := snd (performTranslation s) in
  sourceLang s' = sourceLang s ∧ targetLang s' = targetLang s
  ∧ languageDeps s' = languageDeps s ∧ debouncedSourceText s' = debouncedSourceText s
  ∧ uiLang s' = uiLang s ∧ translationDeps s' = translationDeps s.
Proof.
  destruct (blank (debouncedSourceText s)) eqn:E.
  - rewrite performTranslation_blank by done. done.
  - rewrite performTranslation_dispatch by done. done.
Qed.

Lemma performTranslation_returns s :
  ∃ p, performTranslation s = (Resolved p, snd (performTranslation s)).
Proof.
  destruct (blank (debouncedSourceText s)) eqn:E.
  - rewrite performTranslation_blank by done. eauto.
  - rewrite performTranslation_dispatch by done. eauto.
Qed.

Lemma translationEffect_returns s :
  ∃ p, translationEffect s = (Resolved p, snd (translationEffect s)).
Proof.
  rewrite translationEffect_spec. destruct (decide _); [eauto|].
  apply performTranslation_returns.
Qed.

Lemma translationEffect_frame s :
  let s' := snd (translationEffect s) in
  sourceLang s' = sourceLang s ∧ targetLang s' = targetLang s
  ∧ languageDeps s' = languageDeps s ∧ debouncedSourceText s' = debouncedSourceText s
  ∧ uiLang s' = uiLang s ∧ translationDeps s' = Some (deps s).
Proof.
  rewrite translationEffect_spec. destruct (decide _) as [E|E]; [done|].
  pose proof (performTranslation_frame (set_translationDeps (Some (deps s)) s)) as H.
  cbn in H. cbn. exact H.
Qed.

Lemma newTargetLang_ne sl : sl ≠ newTargetLang sl.
Proof. unfold newTargetLang. destruct sl; cbn; done. Qed.

Lemma languageEffect_spec s :
  languageEffect s =
  (Resolved tt,
   if decide (languageDeps s = Some (sourceLang s, targetLang s)) then s
   else set_languageDeps (Some (sourceLang s, targetLang s))
     (if decide (sourceLang s = targetLang s)
      then set_targetLang (newTargetLang (sourceLang s)) s else s)).
Proof.
  unfold languageEffect, setTargetLang, when, read, modify, mbind, Eff_bind, mret, Eff_ret.
  destruct (decide _) as [E|E].
  - f_equal. rewrite <- E. destruct s; reflexivity.
  - unfold newTargetLang. destruct (decide (sourceLang s = targetLang s)).
    + rewrite bool_decide_true by done. destruct s; reflexivity.
    + rewrite bool_decide_false by done. destruct s; reflexivity.
Qed.

(** One render, seen from the language selection. *)
Lemma render_languages s :
  let s' := snd (render s) in
  sourceLang s' = sourceLang s
  ∧ languageDeps s' = Some (sourceLang s, targetLang s)
  ∧ targetLang s' =
      (if decide (languageDeps s = Some (sourceLang s, targetLang s)) then targetLang s
       else if decide (sourceLang s = targetLang s) then newTargetLang (sourceLang s)
       else targetLang s)
  ∧ translationDeps s' = Some (deps s)
  ∧ debouncedSourceText s' = debouncedSourceText s ∧ uiLang s' = uiLang s.
Proof.
  unfold render, mbind, Eff_bind, mret, Eff_ret.
  pose proof (translationEffect_frame s) as (Hs & Ht & Hl & Hd & Hu & Hdeps).
  destruct (translationEffect_returns s) as [p ->].
  cbn in *. rewrite languageEffect_spec. cbn.
  rewrite Hs, Ht, Hl.
  destruct (decide _) as [E|E]; cbn.
  - rewrite Hs, Ht, Hl, Hdeps, Hd, Hu. done.
  - destruct (decide (sourceLang s = targetLang s)); cbn; rewrite ?Hs, ?Ht, ?Hdeps, ?Hd, ?Hu; done.
Qed.

Lemma render_returns s : ∃ ps, render s = (Resolved ps, snd (render s)).
Proof.
  unfold render, mbind, Eff_bind, mret, Eff_ret.
  destruct (translationEffect_returns s) as [p ->]. cbn.
  rewrite languageEffect_spec. eauto.
Qed.

Lemma settle_returns s :
  ∃ ps, settle s = (Resolved ps, snd (render (snd (render s)))).
Proof.
  unfold settle, mbind, Eff_bind, mret, Eff_ret.
  destruct (render_returns s) as [ps1 ->]. cbn.
  destruct (render_returns (render s).2) as [ps2 ->]. eauto.
Qed.

Lemma settle_languages s :
  (∀ a b, languageDeps s = Some (a, b) → a ≠ b) →
  let s2 := snd (settle s) in
  sourceLang s2 = sourceLang s
  ∧ targetLang s2 =
      (if decide (sourceLang s = targetLang s) then newTargetLang (sourceLang s)
       else targetLang s)
  ∧ stable s2.
Proof.
  intros Hdeps. destruct (settle_returns s) as [ps ->]. cbn.
  pose proof (render_languages s) as (Hs1 & Hl1 & Ht1 & _).
  pose proof (render_languages (render s).2) as (Hs2 & Hl2 & Ht2 & Hd2 & Hx2 & Hu2).
  cbn in *. set (s1 := (render s).2) in *. set (s2 := (render s1).2) in *.
  clearbody s2. clearbody s1.
  assert (targetLang s1 =
          (if decide (sourceLang s = targetLang s) then newTargetLang (sourceLang s)
           else targetLang s)) as Ht1'.
  { rewrite Ht1. destruct (decide (languageDeps s = _)) as [E|E]; [|done].
    apply Hdeps in E. by rewrite decide_False. }
  assert (sourceLang s1 ≠ targetLang s1) as Hne.
  { rewrite Hs1, Ht1'.
    destruct (decide (sourceLang s = targetLang s)); [apply newTargetLang_ne | done]. }
  assert (targetLang s2 = targetLang s1) as Ht2'.
  { rewrite Ht2. destruct (decide (languageDeps s1 = _)); [done|].
    by rewrite decide_False. }
  unfold stable, deps. rewrite Hs2, Ht2', Hs1, Hd2, Hl2, Hx2, Hu2.
  repeat split; try done; unfold deps; rewrite <- ?Hs1; done.
Qed.

Lemma settle_stable_id s : stable s → settle s = (Resolved [], s).
Proof.
  intros (Ht & Hl & _).
  assert (render s = (Resolved [], s)) as Hr.
  { unfold render, mbind, Eff_bind, mret, Eff_ret.
    rewrite translationEffect_spec, decide_True by done.
    rewrite languageEffect_spec, decide_True by done. reflexivity. }
  unfold settle, mbind, Eff_bind, mret, Eff_ret. by rewrite !Hr.
Qed.

Lemma resume_returns p o s : resume p o s = (Resolved tt, snd (resume p o s)).
Proof.
  destruct (decide (currentGeneration p = requestGenerationRef s)).
  - by rewrite resume_current.
  - by rewrite resume_stale.
Qed.

Lemma resume_frame p o s :
  let s' := snd (resume p o s) in
  deps s' = deps s ∧ translationDeps s' = translationDeps s
  ∧ languageDeps s' = languageDeps s ∧ requestGenerationRef s' = requestGenerationRef s
  ∧ calls s' = calls s.
Proof.
  destruct (decide (currentGeneration p = requestGenerationRef s)).
  - rewrite resume_current by done. destruct o; done.
  - by rewrite resume_stale.
Qed.

Lemma handle_returns ev s : handle ev s = (Resolved tt, snd (handle ev s)).
Proof.
  destruct ev; try reflexivity; cbn [handle].
  - unfold handleCorrectionClick, read, when, mbind, Eff_bind.
    destruct (result s) as [r|]; [|reflexivity].
    destruct (truthy _); reflexivity.
  - unfold handleAlternativeClick, read, mbind, Eff_bind.
    destruct (result s); reflexivity.
  - apply resume_returns.
Qed.

Lemma handle_stored ev s :
  translationDeps (snd (handle ev s)) = translationDeps s
  ∧ languageDeps (snd (handle ev s)) = languageDeps s.
Proof.
  destruct ev; try done; cbn [handle].
  - unfold handleCorrectionClick, read, when, mbind, Eff_bind.
    destruct (result s) as [r|]; [|done]. destruct (truthy _); done.
  - unfold handleAlternativeClick, read, mbind, Eff_bind.
    destruct (result s); done.
  - pose proof (resume_frame p o s) as (_ & ? & ? & _). done.
Qed.

Lemma step_unfold s ev : step s ev = snd (settle (snd (handle ev s))).
Proof.
  unfold step, mbind, Eff_bind. by rewrite handle_returns.
Qed.

Lemma step_stable s ev : stable s → stable (step s ev).
Proof.
  intros (_ & Hl & Hne). rewrite step_unfold.
  apply settle_languages. intros a b.
  destruct (handle_stored ev s) as [_ ->]. rewrite Hl. congruence.
Qed.

Lemma mounted_stable : stable mounted.
Proof. apply settle_languages. intros a b. discriminate. Qed.

Lemma run_stable evs s : stable s → stable (run evs s).
Proof.
  revert s. induction evs as [|ev evs IH]; intros s Hs; [done|].
  apply IH, step_stable, Hs.
Qed.


Lemma performTranslation_pending s p s' :
  performTranslation s = (Resolved (Some p), s') →
  blank (debouncedSourceText s) = false
  ∧ p = {| currentGeneration := incr (requestGenerationRef s);
           closure_uiLang := uiLang s |}
  ∧ s' = dispatched s.
Proof.
  destruct (blank (debouncedSourceText s)) eqn:E.
  - rewrite performTranslation_blank by done. discriminate.
  - rewrite performTranslation_dispatch by done. intros [= <- <-]. done.
Qed.

Lemma incr_fresh g : g < MAX_EXACT → incr g ≠ g.
Proof.
  unfold incr. intros H. apply N.ltb_lt in H. rewrite H. lia.
Qed.

Lemma resume_all_current cs s :
  resume_all cs s =
  resume_all (filter (λ c, currentGeneration c.1 = requestGenerationRef s) cs) s.
Proof.
  unfold resume_all. revert s.
  induction cs as [|[p o] cs IH]; intros s; [done|].
  destruct (decide (currentGeneration p = requestGenerationRef s)) as [E|E].
  - rewrite filter_cons_True by done. cbn [foldl fst snd]. rewrite IH.
    by destruct (resume_frame p o s) as (_ & _ & _ & -> & _).
  - rewrite filter_cons_False by done. cbn [foldl fst snd].
    rewrite resume_stale by done. apply IH.
Qed.

(** C1 — Stale-completion discard.  A completion whose captured
    generation is not the current one changes nothing at all, so neither
    [result] nor [error]; of any completions arriving in any order, only
    those of the current generation count.  Consequently, of two
    overlapping calls A and B, B dispatched after A, the state once both
    have completed is the one B's completion alone produces, whichever
    of the two completes first, and [result] and [error] are those of
    B's outcome. *)
Theorem stale_completion_is_discarded :
  (∀ p o s,
     currentGeneration p ≠ requestGenerationRef s →
     resume p o s = (Resolved tt, s))
  ∧ (∀ cs s,
       resume_all cs s =
       resume_all (filter (λ c, currentGeneration c.1 = requestGenerationRef s) cs) s)
  ∧ (∀ sA pA s1 sB pB s2 oA oB,
       performTranslation sA = (Resolved (Some pA), s1) →
       requestGenerationRef sB = requestGenerationRef s1 →
       requestGenerationRef s1 < MAX_EXACT →
       performTranslation sB = (Resolved (Some pB), s2) →
       let after_B := snd (resume pB oB s2) in
       snd (resume pA oA after_B) = after_B
       ∧ snd (resume pB oB (snd (resume pA oA s2))) = after_B
       ∧ result after_B =
           match oB with Resolved r => Some r | Rejected _ => None end
       ∧ error after_B =
           match oB with
           | Resolved _ => []
           | Rejected m =>
             if decide (m = GeminiService.API_KEY_MISSING)
             then I18n.t (closure_uiLang pB) I18n.apiKeyMissingError
             else I18n.t (closure_uiLang pB) I18n.apiError
           end).
Proof.
  split; [exact resume_stale|]. split; [exact resume_all_current|].
  intros sA pA s1 sB pB s2 oA oB HA Hgen Hmax HB after_B.
  apply performTranslation_pending in HA as (_ & -> & ->).
  apply performTranslation_pending in HB as (_ & -> & ->).
  assert (incr (requestGenerationRef sA) ≠ requestGenerationRef (dispatched sB)) as Hstale.
  { cbn in *. rewrite Hgen. intros E. by apply (incr_fresh _ Hmax). }
  assert (after_B =
          (resume {| currentGeneration := incr (requestGenerationRef sB);
                     closure_uiLang := uiLang sB |} oB (dispatched sB)).2) as Hafter
    by reflexivity.
  rewrite resume_current in Hafter by reflexivity.
  repeat split.
  - rewrite resume_stale; [done|]. rewrite Hafter. cbn in *. by destruct oB.
  - rewrite (resume_stale _ oA (dispatched sB)) by done. done.
  - rewrite Hafter. by destruct oB.
  - rewrite Hafter. by destruct oB.
Qed.

(** C3, as the code has it — Empty-input reconcile.  When the debounced
    text trims to the empty string, [performTranslation] sets [result] to
    null and [error] to the empty string and returns; it calls nothing,
    and it leaves [isLoading] and the generation as they were. *)
Theorem empty_input_clears_result_and_error s :
  trim (debouncedSourceText s) = [] →
  let '(outcome, s') := performTranslation s in
  outcome = Resolved None
  ∧ result s' = None ∧ error s' = []
  ∧ calls s' = calls s
  ∧ isLoading s' = isLoading s
  ∧ requestGenerationRef s' = requestGenerationRef s.
Proof.
  intros H. rewrite performTranslation_blank; [done|].
  unfold blank. by rewrite H.
Qed.

(** C4 — Swap languages.  The handler exchanges the two language
    selections; the source text becomes the main translation when the
    result holds a non-empty one, and the empty string (not a
    translation) when there is no result or its main translation is
    empty. *)
Theorem swap_exchanges_languages s :
  let '(outcome, s') := handleSwapLanguages s in
  outcome = Resolved tt
  ∧ sourceLang s' = targetLang s
  ∧ targetLang s' = sourceLang s
  ∧ (∀ r, result s = Some r → mainTranslation r ≠ [] →
       sourceText s' = mainTranslation r)
  ∧ (result s = None → sourceText s' = [])
  ∧ (∀ r, result s = Some r → mainTranslation r = [] → sourceText s' = []).
Proof.
  unfold handleSwapLanguages, setSourceLang, setTargetLang, setSourceText,
    read, modify, mbind, Eff_bind. cbn.
  repeat split.
  - intros r -> Hr. cbn. destruct (mainTranslation r); done.
  - intros ->. done.
  - intros r -> Hr. cbn. by rewrite Hr.
Qed.

(** C5 — Language distinctness.  In every state the mounted component
    reaches, whatever the events, the source and target languages
    differ; and when an event leaves them equal, the renders that follow
    keep the source and force the target to [en] if the source is [ku]
    and to [ku] otherwise. *)
Theorem languages_stay_distinct :
  (∀ evs, sourceLang (run evs mounted) ≠ targetLang (run evs mounted))
  ∧ (∀ evs ev,
       let s := run evs mounted in
       let s1 := snd (handle ev s) in
       sourceLang s1 = targetLang s1 →
       sourceLang (step s ev) = sourceLang s1
       ∧ targetLang (step s ev) = (if decide (sourceLang s1 = Ku) then En else Ku)).
Proof.
  split.
  - intros evs. apply (run_stable evs mounted mounted_stable).
  - intros evs ev s s1 Heq.
    destruct (run_stable evs mounted mounted_stable) as (_ & Hl & Hne).
    fold s in Hl, Hne. rewrite step_unfold. fold s1.
    destruct (settle_languages s1) as (Hs & Ht & _).
    { intros a b. unfold s1. destruct (handle_stored ev s) as [_ ->].
      rewrite Hl. congruence. }
    rewrite Hs, Ht, decide_True by done. done.
Qed.

(** C6 — Promote alternative.  With main translation [M] and
    alternatives [[A; B]], pairwise distinct, clicking [A] makes [A] the
    main translation and [[B; M]] the alternatives (so exactly [B] and
    [M], once each), leaves the other three fields alone, and makes no
    call: the handler makes none, and in a state the component can be in
    the renders that follow make none either. *)
Theorem promote_alternative s r A B M :
  result s = Some r →
  mainTranslation r = M →
  alternativeTranslations r = [A; B] →
  A ≠ B → A ≠ M → B ≠ M →
  let '(outcome, s') := handleAlternativeClick A s in
  outcome = Resolved tt
  ∧ result s' = Some {| detectedLanguage := detectedLanguage r;
                        correctedSourceText := correctedSourceText r;
                        mainTranslation := A;
                        alternativeTranslations := [B; M];
                        meaningExplanation := meaningExplanation r |}
  ∧ NoDup [B; M]
  ∧ (∀ x, x ∈ [B; M] ↔ x = B ∨ x = M)
  ∧ calls s' = calls s
  ∧ requestGenerationRef s' = requestGenerationRef s
  ∧ (stable s → step s (AlternativeClick A) = s').
Proof.
  intros Hr HM Halts HAB HAM HBM.
  assert (handleAlternativeClick A s =
          (Resolved tt,
           set_result (Some {| detectedLanguage := detectedLanguage r;
                               correctedSourceText := correctedSourceText r;
                               mainTranslation := A;
                               alternativeTranslations := [B; M];
                               meaningExplanation := meaningExplanation r |}) s))
    as Hclick.
  { unfold handleAlternativeClick, setResult, read, modify, mbind, Eff_bind.
    rewrite Hr, Halts, HM. do 4 f_equal.
    rewrite filter_cons_False by (intros E; by apply E).
    rewrite filter_cons_True by (intros E; by apply HAB). done. }
  rewrite Hclick. split_and!; try done.
  - apply NoDup_cons_2; [|apply NoDup_singleton].
    by rewrite list_elem_of_singleton.
  - intros x. rewrite elem_of_cons, list_elem_of_singleton. done.
  - intros Hst. rewrite step_unfold. cbn [handle]. rewrite Hclick. cbn [snd].
    rewrite settle_stable_id; [done|].
    destruct Hst as (Ht & Hl & Hne). by split_and!.
Qed.

(** The claim of C3 as it was stated fails on [isLoading]: a request
    for "a" is in flight when the debounced text becomes empty, and the
    reconcile that clears [result] and [error] leaves [isLoading] set. *)
Lemma empty_input_leaves_isLoading_set :
  let s := run [TypeText (js "a"); DebounceEmits (js "a"); TypeText []] mounted in
  let s0 := set_debouncedSourceText [] s in
  trim (debouncedSourceText s0) = []
  ∧ isLoading (snd (performTranslation s0)) = true
  ∧ isLoading (step s (DebounceEmits [])) = true.
Proof. vm_compute. done. Qed.

(** The scenario of the empty input with nothing in flight: [result] is
    null, [error] empty, [isLoading] false, and no call was made. *)
Example empty_input_scenario :
  let s := run [TypeText []; DebounceEmits []] mounted in
  result s = None ∧ error s = [] ∧ isLoading s = false ∧ calls s = [].
Proof. vm_compute. done. Qed.

Lemma empty_input_clears_result_and_error_witness :
  let s := run [TypeText (js "a"); DebounceEmits (js "a"); TypeText (js " ")] mounted in
  let s0 := set_debouncedSourceText (js " ") s in
  result (snd (performTranslation s0)) = None
  ∧ calls (snd (performTranslation s0)) = calls s0.
Proof.
  intros s s0.
  pose proof (empty_input_clears_result_and_error s0) as H.
  destruct (performTranslation s0) as [outcome s'].
  destruct H as (_ & Hr & _ & Hc & _).
  - vm_compute. reflexivity.
  - split; [exact Hr | exact Hc].
Defined.

Lemma stale_completion_is_discarded_witness :
  let sA := set_debouncedSourceText (js "a") mounted in
  let pA := {| currentGeneration := 1; closure_uiLang := I18n.tr |} in
  let sB := set_debouncedSourceText (js "ab") (dispatched sA) in
  let pB := {| currentGeneration := 2; closure_uiLang := I18n.tr |} in
  let oA : Settled Translation := Rejected [] in
  let oB : Settled Translation := Rejected GeminiService.FAILED in
  resume pA oA (dispatched sB) = (Resolved tt, dispatched sB)
  ∧ snd (resume pA oA (snd (resume pB oB (dispatched sB))))
    = snd (resume pB oB (dispatched sB))
  ∧ snd (resume pB oB (snd (resume pA oA (dispatched sB))))
    = snd (resume pB oB (dispatched sB)).
Proof.
  intros sA pA sB pB oA oB. split.
  - apply (proj1 stale_completion_is_discarded). vm_compute. discriminate.
  - destruct (proj2 (proj2 stale_completion_is_discarded) sA pA (dispatched sA) sB pB
                (dispatched sB) oA oB) as (H1 & H2 & _).
    + vm_compute. reflexivity.
    + vm_compute. reflexivity.
    + vm_compute. reflexivity.
    + vm_compute. reflexivity.
    + split; [exact H1 | exact H2].
Defined.

Lemma swap_exchanges_languages_witness :
  let r : Translation :=
    {| detectedLanguage := []; correctedSourceText := js "rojbas";
       mainTranslation := js "hello"; alternativeTranslations := [js "hi"];
       meaningExplanation := [] |} in
  let r0 : Translation :=
    {| detectedLanguage := []; correctedSourceText := js "rojbas";
       mainTranslation := []; alternativeTranslations := [];
       meaningExplanation := [] |} in
  sourceText (snd (handleSwapLanguages (set_result (Some r) mounted))) = js "hello"
  ∧ sourceText (snd (handleSwapLanguages mounted)) = []
  ∧ sourceText (snd (handleSwapLanguages (set_result (Some r0) mounted))) = [].
Proof.
  intros r r0. split_and!.
  - pose proof (swap_exchanges_languages (set_result (Some r) mounted)) as H.
    destruct (handleSwapLanguages (set_result (Some r) mounted)) as [outcome s'].
    destruct H as (_ & _ & _ & H & _).
    apply (H r); [reflexivity | vm_compute; discriminate].
  - pose proof (swap_exchanges_languages mounted) as H.
    destruct (handleSwapLanguages mounted) as [outcome s'].
    destruct H as (_ & _ & _ & _ & H & _).
    apply H. reflexivity.
  - pose proof (swap_exchanges_languages (set_result (Some r0) mounted)) as H.
    destruct (handleSwapLanguages (set_result (Some r0) mounted)) as [outcome s'].
    destruct H as (_ & _ & _ & _ & _ & H).
    apply (H r0); reflexivity.
Defined.

Lemma languages_stay_distinct_witness :
  sourceLang (step mounted (SelectSource Tr)) = Tr
  ∧ targetLang (step mounted (SelectSource Tr)) = Ku.
Proof.
  destruct (proj2 languages_stay_distinct [] (SelectSource Tr)) as [Hs Ht].
  - vm_compute. reflexivity.
  - split; [etrans; [exact Hs|] | etrans; [exact Ht|]]; vm_compute; reflexivity.
Defined.

Lemma promote_alternative_witness :
  let r : Translation :=
    {| detectedLanguage := []; correctedSourceText := js "rojbas";
       mainTranslation := js "M"; alternativeTranslations := [js "A"; js "B"];
       meaningExplanation := js "a greeting" |} in
  let s := set_result (Some r) mounted in
  result (snd (handleAlternativeClick (js "A") s))
  = Some {| detectedLanguage := []; correctedSourceText := js "rojbas";
            mainTranslation := js "A"; alternativeTranslations := [js "B"; js "M"];
            meaningExplanation := js "a greeting" |}
  ∧ step s (AlternativeClick (js "A")) = snd (handleAlternativeClick (js "A") s).
Proof.
  intros r s.
  pose proof (promote_alternative s r (js "A") (js "B") (js "M")
                eq_refl eq_refl eq_refl) as H.
  destruct (handleAlternativeClick (js "A") s) as [outcome s'].
  destruct H as (_ & Hr & _ & _ & _ & _ & Hstep).
  - vm_compute. discriminate.
  - vm_compute. discriminate.
  - vm_compute. discriminate.
  - split; [exact Hr|]. apply Hstep. vm_compute. split_and!; [reflexivity..|discriminate].
Defined.

End AppFacts.

(** ** The component and the service together *)
Section Reporting.
Import App.

Context {number : Type} (number_truthy : number -> bool).

(** C8 — Configuration-error mapping.  A dispatch made while the
    credential is absent calls [translateText] with the arguments the
    component logs, and that call rejects with [API_KEY_MISSING] without
    reaching the model; when [performTranslation] resumes on that
    rejection, no newer request having been dispatched, it sets [error]
    to [t('apiKeyMissingError')] in the UI language of the dispatch,
    [result] to null and [isLoading] to false; on a rejection with any
    other message it sets [error] to [t('apiError')] instead;
    [translateText] rejects with no message but these two kinds; and
    [performTranslation] never finishes by a throw, whatever it resumes
    on. *)
Theorem missing_credential_is_reported
    (API_KEY : option jsstring)
    (generateContent : GeminiService.GenerateRequest -> GeminiService.GenerateResponse)
    (JSON_parse : jsstring -> option (GeminiService.value (number := number)))
    (s : State) (p : Pending) (s1 : State) :
  GeminiService.key_missing API_KEY = true →
  performTranslation s = (Resolved (Some p), s1) →
  (∃ c, calls s1 = calls s ++ [c]
      ∧ GeminiService.translateText number_truthy API_KEY generateContent JSON_parse
          (call_text c) (call_sourceLang c) (call_targetLang c) (call_uiLang c)
        = (Rejected (js "API_KEY_MISSING"), []))
  ∧ (∀ s', requestGenerationRef s' = requestGenerationRef s1 →
     let '(outcome, s2) := resume p (Rejected (js "API_KEY_MISSING")) s' in
     outcome = Resolved tt
     ∧ error s2 = I18n.t (uiLang s) I18n.apiKeyMissingError
     ∧ result s2 = None
     ∧ isLoading s2 = false)
  ∧ (∀ s' m, requestGenerationRef s' = requestGenerationRef s1 → m ≠ js "API_KEY_MISSING" →
     let '(outcome, s2) := resume p (Rejected m) s' in
     outcome = Resolved tt
     ∧ error s2 = I18n.t (uiLang s) I18n.apiError
     ∧ result s2 = None
     ∧ isLoading s2 = false)
  ∧ (∀ key text sl tl ul m,
       fst (GeminiService.translateText number_truthy key generateContent JSON_parse
              text sl tl ul) = Rejected m →
       m = js "API_KEY_MISSING" ∨ (m = GeminiService.FAILED ∧ m ≠ js "API_KEY_MISSING"))
  ∧ (∀ q o s', fst (resume q o s') = Resolved tt).
Proof.
  intros Hkey Hp. apply performTranslation_pending in Hp as (Hb & -> & ->).
  split_and!.
  - eexists. split.
    + reflexivity.
    + cbn. by apply translateText_key_missing.
  - intros s' Hg. rewrite resume_current by (by rewrite Hg). cbn.
    rewrite decide_True by reflexivity. done.
  - intros s' m Hg Hm. rewrite resume_current by (by rewrite Hg). cbn.
    rewrite decide_False by exact Hm. done.
  - intros key text sl tl ul m Hm.
    apply translateText_rejections in Hm as [-> | ->]; [by left | right].
    split; [done | apply FAILED_is_not_the_key_error].
  - intros q o s'. by rewrite resume_returns.
Qed.

End Reporting.

Lemma missing_credential_is_reported_witness :
  let s := App.set_debouncedSourceText (js "rojbas") App.mounted in
  let p := {| App.currentGeneration := 1; App.closure_uiLang := I18n.tr |} in
  App.error (snd (App.resume p (Rejected (js "API_KEY_MISSING")) (App.dispatched s)))
  = I18n.translations_tr I18n.apiKeyMissingError
  ∧ App.error (snd (App.resume p (Rejected []) (App.dispatched s)))
    = I18n.translations_tr I18n.apiError.
Proof.
  intros s p.
  pose proof (missing_credential_is_reported (λ n : N, negb (n =? 0)) None
                (λ _, GeminiService.Throws) (λ _, None) s p (App.dispatched s))
    as H.
  destruct H as (_ & Hkey & Hother & _).
  - reflexivity.
  - vm_compute. reflexivity.
  - split.
    + specialize (Hkey (App.dispatched s) eq_refl).
      destruct (App.resume p (Rejected (js "API_KEY_MISSING")) (App.dispatched s))
        as [outcome s2].
      destruct Hkey as (_ & He & _). etrans; [exact He|]. vm_compute. reflexivity.
    + specialize (Hother (App.dispatched s) [] eq_refl).
      destruct (App.resume p (Rejected []) (App.dispatched s)) as [outcome s2].
      destruct Hother as (_ & He & _); [vm_compute; discriminate|].
      etrans; [exact He|]. vm_compute. reflexivity.
Defined.

(** ** Duplicate suppression *)
Section Duplicates.
Import AppKeyed.

Lemma keyed_performTranslation_cases (s : State) :
  let key := requestKey (debouncedSourceText s)
               (sourceLang s) (targetLang s) (uiLang s) in
  let '(r, s') := performTranslation s in
  debouncedSourceText s' = debouncedSourceText s
  ∧ sourceLang s' = sourceLang s
  ∧ targetLang s' = targetLang s
  ∧ uiLang s' = uiLang s
  ∧ (if blank (debouncedSourceText s)
        || bool_decide (lastRequestRef s = key)
     then r = Resolved None
          ∧ calls s' = calls s
          ∧ lastRequestRef s' = lastRequestRef s
     else r = Resolved (Some (uiLang s))
          ∧ calls s' =
              calls s ++
              [ {| App.call_text := debouncedSourceText s;
                   App.call_sourceLang := sourceLang s;
                   App.call_targetLang := targetLang s;
                   App.call_uiLang := uiLang s |} ]
          ∧ lastRequestRef s' = key).
Proof.
  unfold performTranslation, setResult, setError,
    setIsLoading, setLastRequest, translateText,
    read, modify, when, mbind, Eff_bind, mret, Eff_ret.
  destruct (blank (debouncedSourceText s)); cbn; [done|].
  destruct (bool_decide _); cbn; done.
Qed.

(** C2 — Duplicate suppression.  In the revision of the component whose
    [performTranslation] keeps the key of the last dispatched request:
    of two consecutive invocations with the same four values, the second
    returns without dispatching, and the two together make exactly one
    call when the first dispatched.  In the revision with the generation
    counter the same holds of the effect that invokes
    [performTranslation]: with the same four values as the render
    before, it does not invoke it, and the state keeps the one call of
    the first. *)
Theorem duplicate_request_is_suppressed :
  (∀ s s' : State,
     let '(first, s1) := performTranslation s in
     debouncedSourceText s' = debouncedSourceText s →
     sourceLang s' = sourceLang s →
     targetLang s' = targetLang s →
     uiLang s' = uiLang s →
     lastRequestRef s' = lastRequestRef s1 →
     calls s' = calls s1 →
     let '(second, s2) := performTranslation s' in
     second = Resolved None
     ∧ calls s2 = calls s1
     ∧ (first ≠ Resolved None →
        calls s2 =
        calls s ++
        [ {| App.call_text := debouncedSourceText s;
             App.call_sourceLang := sourceLang s;
             App.call_targetLang := targetLang s;
             App.call_uiLang := uiLang s |} ]))
  ∧ (∀ s s' : App.State,
       let '(first, s1) := App.translationEffect s in
       App.deps s' = App.deps s →
       App.translationDeps s' = App.translationDeps s1 →
       App.calls s' = App.calls s1 →
       App.translationEffect s' = (Resolved None, s')
       ∧ (first ≠ Resolved None →
          App.calls s' =
          App.calls s ++
          [ {| App.call_text := App.debouncedSourceText s;
               App.call_sourceLang := App.sourceLang s;
               App.call_targetLang := App.targetLang s;
               App.call_uiLang := App.uiLang s |} ])).
Proof.
  split.
  - intros s s'.
    pose proof (keyed_performTranslation_cases s) as H1.
    pose proof (keyed_performTranslation_cases s') as H2.
    destruct (performTranslation s) as [first s1].
    intros Hd Hsl Htl Hul Hlast Hcalls.
    destruct (performTranslation s') as [second s2].
    cbn zeta in H1, H2. rewrite Hd, Hsl, Htl, Hul, Hlast, Hcalls in H2.
    destruct H1 as (_ & _ & _ & _ & H1). destruct H2 as (_ & _ & _ & _ & H2).
    destruct (blank (debouncedSourceText s)); cbn in *.
    + destruct H1 as (-> & _ & _). destruct H2 as (-> & -> & _). done.
    + destruct (bool_decide _) eqn:E in H1.
      * destruct H1 as (-> & _ & E1). rewrite E1, E in H2.
        destruct H2 as (-> & -> & _). done.
      * destruct H1 as (-> & Hc & E1). rewrite E1, bool_decide_true in H2 by done.
        destruct H2 as (-> & -> & _). done.
  - intros s s'.
    pose proof (translationEffect_frame s) as (_ & _ & _ & _ & _ & Hdeps).
    pose proof (translationEffect_spec s) as Hspec.
    destruct (App.translationEffect s) as [first s1]. cbn in Hdeps.
    intros Hd Hstored Hcalls. split.
    + rewrite translationEffect_spec, decide_True; [done|]. congruence.
    + intros Hfirst. rewrite Hcalls.
      destruct (decide _) as [E|E] in Hspec; [by injection Hspec as -> ->|].
      destruct (blank (App.debouncedSourceText s)) eqn:Hb.
      * rewrite performTranslation_blank in Hspec by done. by injection Hspec as -> ->.
      * rewrite performTranslation_dispatch in Hspec by done.
        by injection Hspec as -> ->.
Qed.

Lemma duplicate_request_is_suppressed_witness :
  let s : State :=
    {| uiLang := I18n.tr; sourceLang := Auto;
       targetLang := Ku; result := None;
       isLoading := false; error := [];
       isMeaningVisible := false;
       debouncedSourceText := js "rojbas";
       lastRequestRef := []; calls := [] |} in
  let s1 := snd (performTranslation s) in
  let a := App.set_debouncedSourceText (js "rojbas") App.mounted in
  let a1 := snd (App.translationEffect a) in
  length (calls (snd (performTranslation s1))) = 1%nat
  ∧ App.translationEffect a1 = (Resolved None, a1)
  ∧ length (App.calls a1) = 1%nat.
Proof.
  intros s s1 a a1. split.
  - pose proof (proj1 duplicate_request_is_suppressed s s1) as H.
    rewrite (surjective_pairing (performTranslation s)) in H.
    rewrite (surjective_pairing (performTranslation s1)) in H.
    destruct H as (_ & _ & H); [vm_compute; reflexivity ..|].
    rewrite H; [vm_compute; reflexivity | vm_compute; discriminate].
  - pose proof (proj2 duplicate_request_is_suppressed a a1) as H.
    rewrite (surjective_pairing (App.translationEffect a)) in H.
    destruct H as (H1 & H2); [vm_compute; reflexivity ..|].
    split; [exact H1|].
    rewrite H2; [vm_compute; reflexivity | vm_compute; discriminate].
Defined.

End Duplicates.

(** * Further properties *)

(** ** The service: calls and outcomes *)
Section ServiceCalls.
Import GeminiService.

Context {number : Type} (number_truthy : number -> bool).

Lemma languageMap_truthy (l : Language) : truthy (languageMap l) = true.
Proof. destruct l; vm_compute; reflexivity. Qed.

(** X1 — The calls of [translateText] to the model.  The function calls
    the model at most once; it calls it exactly when the credential is
    present and the text does not trim to the empty string, and then
    with the text as it was given, the names of the three languages
    from [languageMap] (the fallback ['Turkish'] for the UI language is
    never taken) and the model ["gemini-2.5-flash-lite"]. *)
Theorem translateText_calls_the_model_once
    (API_KEY : option jsstring) (generateContent : GenerateRequest -> GenerateResponse)
    (JSON_parse : jsstring -> option value) (text : jsstring)
    (sourceLang targetLang : Language) (uiLang : I18n.UiLanguage) :
  let made := snd (translateText number_truthy API_KEY generateContent JSON_parse
                     text sourceLang targetLang uiLang) in
  (length made <= 1)%nat
  ∧ (made = [] ↔ key_missing API_KEY = true ∨ blank text = true)
  ∧ (∀ request, request ∈ made →
       model request = js "gemini-2.5-flash-lite"
       ∧ textToTranslate request = text
       ∧ sourceLanguageName request = languageMap sourceLang
       ∧ targetLanguageName request = languageMap targetLang
       ∧ uiLanguageName request = languageMap (I18n.asLanguage uiLang)).
Proof.
  unfold translateText.
  destruct (key_missing API_KEY); cbn.
  { split_and!; [lia | split; [by left | done] | intros ? []%elem_of_nil]. }
  destruct (blank text); cbn.
  { split_and!; [lia | split; [by right | done] | intros ? []%elem_of_nil]. }
  split_and!; [lia | split; [done | intros [?|?]; done] |].
  intros request ->%list_elem_of_singleton. unfold request_for; cbn.
  split_and!; try done. unfold or_else. by rewrite languageMap_truthy.
Qed.

(** X2 — When [translateText] rejects and when it resolves.  With the
    credential present and a text that does not trim to empty, the
    promise rejects, always with the one fixed message, exactly when
    the model call throws, its response has no text, the text does not
    parse, or it parses to [null] (or [undefined]); in every other case
    it resolves, also when the parse is a number, a string, a boolean
    or an array, and then with every field at its default. *)
Theorem translateText_outcomes
    (API_KEY : option jsstring) (generateContent : GenerateRequest -> GenerateResponse)
    (JSON_parse : jsstring -> option value) (text : jsstring)
    (sourceLang targetLang : Language) (uiLang : I18n.UiLanguage) :
  key_missing API_KEY = false →
  blank text = false →
  let request :=
    request_for (js "gemini-2.5-flash-lite") text sourceLang targetLang uiLang in
  let outcome := fst (translateText number_truthy API_KEY generateContent JSON_parse
                        text sourceLang targetLang uiLang) in
  let parsed :=
    match generateContent request with
    | Responds (Some responseText) => JSON_parse (trim responseText)
    | _ => None
    end in
  (parsed = None ∨ parsed = Some VNull ∨ parsed = Some VUndefined →
   outcome = Rejected FAILED)
  ∧ (∀ result, parsed = Some result → result ≠ VNull → result ≠ VUndefined →
     ∃ r, outcome = Resolved r)
  ∧ (∀ result, parsed = Some result →
     (∀ props, result ≠ VObj props) → result ≠ VNull → result ≠ VUndefined →
     outcome = Resolved {| detectedLanguage := VStr [];
                           correctedSourceText := VStr text;
                           mainTranslation := VStr [];
                           alternativeTranslations := VArr [];
                           meaningExplanation := VStr [] |}).
Proof.
  intros Hkey Hblank request outcome parsed.
  assert (outcome =
          match parsed with
          | None => Rejected FAILED
          | Some result =>
            match fromParsed number_truthy text result with
            | None => Rejected FAILED
            | Some r => Resolved r
            end
          end) as ->.
  { unfold outcome, parsed, translateText, callModel. rewrite Hkey, Hblank. cbn [fst].
    fold request. destruct (generateContent request) as [|[responseText|]]; done. }
  clearbody parsed. split_and!.
  - intros [-> | [-> | ->]]; done.
  - intros result -> Hnull Hundef. destruct result; try done; eauto.
  - intros result -> Hobj Hnull Hundef. destruct result; try done.
    by destruct (Hobj props).
Qed.

End ServiceCalls.

Lemma translateText_calls_the_model_once_witness :
  let made := snd (GeminiService.translateText (λ n : N, negb (n =? 0))
                     (Some (js "secret")) (λ _, GeminiService.Throws) (λ _, None)
                     (js "rojbas") Ku En I18n.en) in
  let request := GeminiService.request_for (js "gemini-2.5-flash-lite")
                   (js "rojbas") Ku En I18n.en in
  request ∈ made ∧ GeminiService.textToTranslate request = js "rojbas".
Proof.
  intros made request.
  assert (request ∈ made) as Hin
    by (vm_compute; apply list_elem_of_singleton; reflexivity).
  split; [exact Hin|].
  exact (proj1 (proj2 (proj2 (proj2 (translateText_calls_the_model_once
                 (λ n : N, negb (n =? 0)) (Some (js "secret"))
                 (λ _, GeminiService.Throws) (λ _, None)
                 (js "rojbas") Ku En I18n.en)) request Hin))).
Defined.

Lemma translateText_outcomes_witness :
  let number_truthy := λ n : N, negb (n =? 0) in
  let JSON_parse := λ s : jsstring,
    if decide (s = js "42") then Some (GeminiService.VNum 42)
    else if decide (s = js "null") then Some GeminiService.VNull else None in
  fst (GeminiService.translateText number_truthy (Some (js "secret"))
         (λ _, GeminiService.Responds (Some (js "null"))) JSON_parse
         (js "rojbas") Ku En I18n.en) = Rejected GeminiService.FAILED
  ∧ fst (GeminiService.translateText number_truthy (Some (js "secret"))
           (λ _, GeminiService.Responds (Some (js " 42 "))) JSON_parse
           (js "rojbas") Ku En I18n.en)
    = Resolved {| detectedLanguage := GeminiService.VStr [];
                  correctedSourceText := GeminiService.VStr (js "rojbas");
                  mainTranslation := GeminiService.VStr [];
                  alternativeTranslations := GeminiService.VArr [];
                  meaningExplanation := GeminiService.VStr [] |}.
Proof.
  intros number_truthy JSON_parse. split.
  - apply (proj1 (translateText_outcomes number_truthy (Some (js "secret"))
                    (λ _, GeminiService.Responds (Some (js "null"))) JSON_parse
                    (js "rojbas") Ku En I18n.en eq_refl
                    ltac:(vm_compute; reflexivity))).
    right; left. vm_compute. reflexivity.
  - apply (proj2 (proj2 (translateText_outcomes number_truthy (Some (js "secret"))
                    (λ _, GeminiService.Responds (Some (js " 42 "))) JSON_parse
                    (js "rojbas") Ku En I18n.en eq_refl
                    ltac:(vm_compute; reflexivity))) (GeminiService.VNum 42)).
    + vm_compute. reflexivity.
    + intros props. discriminate.
    + discriminate.
    + discriminate.
Defined.

(** ** The string table *)
Section Strings.
Import I18nParams.

Lemma indexOf_absent (c : N) (pat s : jsstring) :
  c ∉ s → indexOf (c :: pat) s = None.
Proof.
  induction s as [|d s IH]; intros Hc; [reflexivity|].
  apply not_elem_of_cons in Hc as [Hne Hc]. cbn.
  rewrite bool_decide_false by done. cbn. by rewrite IH.
Qed.

Lemma replace_absent (paramKey replacement s : jsstring) :
  123 ∉ s → replace (placeholder paramKey) replacement s = s.
Proof.
  intros Hs. unfold replace, placeholder.
  change (js "{") with [123]. cbn [app]. by rewrite indexOf_absent.
Qed.

Lemma forallb_absent (c : N) (s : jsstring) :
  forallb (λ d, negb (d =? c)) s = true → c ∉ s.
Proof.
  induction s as [|d s IH]; cbn; [intros _; apply not_elem_of_nil|].
  intros [Hd Hs]%andb_true_iff. apply not_elem_of_cons. split; [|by apply IH].
  intros ->. by rewrite N.eqb_refl in Hd.
Qed.

Lemma table_has_no_brace language key : 123 ∉ I18n.translations language key.
Proof.
  apply forallb_absent. destruct language, key; vm_compute; reflexivity.
Qed.

Lemma table_is_truthy language key : truthy (I18n.translations language key) = true.
Proof. destruct language, key; vm_compute; reflexivity. Qed.

(** X3 — The string table and [t].  Every key has a non-empty string in
    each of the three languages, so [t] returns the string of the
    selected language and never the English fallback; and no string of
    the table has a placeholder, so [t] returns the same string
    whatever [params] it is given. *)
Theorem t_returns_the_selected_language language key params :
  t language key params = I18n.translations language key
  ∧ I18n.t language key = I18n.translations language key
  ∧ I18n.translations language key ≠ [].
Proof.
  pose proof (table_is_truthy language key) as Htruthy.
  assert (or_else (I18n.translations language key) (I18n.translations I18n.en key)
          = I18n.translations language key) as Hor
    by (unfold or_else; by rewrite Htruthy).
  split_and!.
  - unfold t. rewrite Hor. destruct params as [entries|]; [|done].
    pose proof (table_has_no_brace language key) as Hs.
    induction entries as [|entry entries IH]; [done|].
    cbn [foldl]. by rewrite replace_absent.
  - unfold I18n.t. exact Hor.
  - intros E. by rewrite E in Htruthy.
Qed.

End Strings.

(** ** The request key of the earlier revision *)
Section RequestKey.
Import AppKeyed.

(** A key ends in a colon and a language code, and the code and what
    comes before the colon can be read back from it. *)
Lemma key_suffix_inj (a b : jsstring) (l1 l2 : Language) :
  a ++ js ":" ++ code l1 = b ++ js ":" ++ code l2 → a = b ∧ l1 = l2.
Proof.
  intros H. apply (f_equal reverse) in H. rewrite !reverse_app in H.
  assert (∀ l, reverse (code l) =
               match l with
               | Auto => [111; 116; 117; 97] | Ku => [117; 107]
               | Tr => [114; 116] | En => [110; 101]
               end) as Hcode by (intros []; vm_compute; reflexivity).
  rewrite !Hcode in H. change (reverse (js ":")) with [58] in H.
  destruct l1, l2; cbn in H; try discriminate H;
    (split; [|reflexivity]); apply (inj reverse); by simplify_eq.
Qed.

Lemma asLanguage_inj (u1 u2 : I18n.UiLanguage) :
  I18n.asLanguage u1 = I18n.asLanguage u2 → u1 = u2.
Proof. by destruct u1, u2. Qed.

Lemma requestKey_inj text1 sl1 tl1 ul1 text2 sl2 tl2 ul2 :
  requestKey text1 sl1 tl1 ul1 = requestKey text2 sl2 tl2 ul2 →
  text1 = text2 ∧ sl1 = sl2 ∧ tl1 = tl2 ∧ ul1 = ul2.
Proof.
  assert (∀ text sl tl ul,
            requestKey text sl tl ul =
            ((text ++ js ":" ++ code sl) ++ js ":" ++ code tl)
              ++ js ":" ++ code (I18n.asLanguage ul)) as Hkey
    by (intros; unfold requestKey; by rewrite <- !app_assoc).
  rewrite !Hkey. intros H.
  apply key_suffix_inj in H as [H Hul].
  apply key_suffix_inj in H as [H Htl].
  apply key_suffix_inj in H as [H Hsl].
  by apply asLanguage_inj in Hul.
Qed.
End RequestKey.

Section KeyedSuppression.
Import AppKeyed.

Lemma requestKey_not_empty text sl tl ul : requestKey text sl tl ul ≠ [].
Proof.
  unfold requestKey. change (js ":") with [58]. intros H.
  apply app_eq_nil in H as [_ H]. discriminate H.
Qed.

(** X4 — The request key of the earlier revision tells requests apart.
    Two keys are equal only for the same text, source, target and UI
    language (a colon in the text does not confuse it), and no key is
    the empty string the ref starts with.  So [performTranslation]
    returns without dispatching exactly when the text is blank or the
    four values are those of the request dispatched last; a request
    that differs in any of them is never suppressed. *)
Theorem keyed_suppression_is_exact :
  (∀ text1 sl1 tl1 ul1 text2 sl2 tl2 ul2,
     requestKey text1 sl1 tl1 ul1 = requestKey text2 sl2 tl2 ul2 →
     text1 = text2 ∧ sl1 = sl2 ∧ tl1 = tl2 ∧ ul1 = ul2)
  ∧ (∀ s text sl tl ul,
       lastRequestRef s = requestKey text sl tl ul →
       fst (performTranslation s) = Resolved None
       ↔ blank (debouncedSourceText s) = true
         ∨ (debouncedSourceText s = text ∧ sourceLang s = sl
            ∧ targetLang s = tl ∧ uiLang s = ul))
  ∧ (∀ s, lastRequestRef s = [] →
       fst (performTranslation s) = Resolved None
       ↔ blank (debouncedSourceText s) = true).
Proof.
  split; [exact requestKey_inj|]. split.
  - intros s text sl tl ul Hlast.
    pose proof (keyed_performTranslation_cases s) as H.
    destruct (performTranslation s) as [r s']. cbn zeta in H. cbn [fst].
    destruct H as (_ & _ & _ & _ & H).
    destruct (blank (debouncedSourceText s)); cbn in H.
    { destruct H as (-> & _). split; [by left | done]. }
    rewrite Hlast in H. case_bool_decide as Hkey.
    + destruct H as (-> & _). apply requestKey_inj in Hkey as (-> & -> & -> & ->).
      split; [by right | done].
    + destruct H as (-> & _). split; [done|]. intros [? | (<- & <- & <- & <-)]; done.
  - intros s Hlast.
    pose proof (keyed_performTranslation_cases s) as H.
    destruct (performTranslation s) as [r s']. cbn zeta in H. cbn [fst].
    destruct H as (_ & _ & _ & _ & H).
    destruct (blank (debouncedSourceText s)); cbn in H.
    { by destruct H as (-> & _). }
    rewrite Hlast, bool_decide_false in H
      by (intros E; symmetry in E; by apply requestKey_not_empty in E).
    by destruct H as (-> & _).
Qed.

Lemma keyed_suppression_is_exact_witness :
  let s : State :=
    {| uiLang := I18n.tr; sourceLang := Ku; targetLang := En; result := None;
       isLoading := false; error := []; isMeaningVisible := false;
       debouncedSourceText := js "a:ku";
       lastRequestRef := requestKey (js "a") Ku Ku I18n.tr; calls := [] |} in
  fst (performTranslation s) ≠ Resolved None
  ∧ fst (performTranslation initial) = Resolved None.
Proof.
  intros s. split.
  - intros H.
    apply (proj1 (proj1 (proj2 keyed_suppression_is_exact) s (js "a") Ku Ku I18n.tr
                    eq_refl)) in H as [H | (H & _)];
      revert H; vm_compute; discriminate.
  - apply (proj2 (proj2 keyed_suppression_is_exact) initial eq_refl).
    vm_compute. reflexivity.
Defined.

End KeyedSuppression.

(** ** The component: who calls the service, and how often *)
Section Accounting.
Import App AppCalls.

Lemma handle_accounts ev s :
  calls (snd (handle ev s)) = calls s
  ∧ requestGenerationRef (snd (handle ev s)) = requestGenerationRef s.
Proof.
  destruct ev; try done; cbn [handle].
  - unfold handleCorrectionClick, read, when, mbind, Eff_bind.
    destruct (result s) as [r|]; [|done]. destruct (truthy _); done.
  - unfold handleAlternativeClick, read, mbind, Eff_bind.
    destruct (result s); done.
  - pose proof (resume_frame p o s) as (_ & _ & _ & ? & ?). done.
Qed.

Lemma languageEffect_accounts s :
  let s' := snd (languageEffect s) in
  calls s' = calls s ∧ requestGenerationRef s' = requestGenerationRef s
  ∧ isLoading s' = isLoading s ∧ result s' = result s ∧ error s' = error s
  ∧ sourceText s' = sourceText s.
Proof.
  rewrite languageEffect_spec. cbn.
  destruct (decide _); [done|]. destruct (decide _); done.
Qed.

Lemma translationEffect_accounts s :
  let s' := snd (translationEffect s) in
  calls s' = calls s ++ due_calls s
  ∧ requestGenerationRef s' =
      Nat.iter (length (due_calls s)) incr (requestGenerationRef s)
  ∧ isLoading s' = (if due_calls s is [] then isLoading s else true)
  ∧ sourceText s' = sourceText s.
Proof.
  rewrite translationEffect_spec. unfold due_calls.
  destruct (decide _) as [E|E]; cbn; [by rewrite app_nil_r|].
  destruct (blank (debouncedSourceText s)) eqn:Hb.
  - rewrite performTranslation_blank by done. cbn. by rewrite app_nil_r.
  - rewrite performTranslation_dispatch by done. done.
Qed.

Lemma render_snd s : snd (render s) = snd (languageEffect (snd (translationEffect s))).
Proof.
  unfold render, mbind, Eff_bind, mret, Eff_ret.
  destruct (translationEffect_returns s) as [p ->]. cbn.
  by rewrite languageEffect_spec.
Qed.

Lemma render_accounts s :
  let s' := snd (render s) in
  calls s' = calls s ++ due_calls s
  ∧ requestGenerationRef s' =
      Nat.iter (length (due_calls s)) incr (requestGenerationRef s)
  ∧ isLoading s' = (if due_calls s is [] then isLoading s else true)
  ∧ sourceText s' = sourceText s.
Proof.
  cbn zeta. rewrite render_snd.
  pose proof (languageEffect_accounts (translationEffect s).2) as (-> & -> & -> & _ & _ & ->).
  apply translationEffect_accounts.
Qed.

Lemma settle_snd s : snd (settle s) = snd (render (snd (render s))).
Proof. by destruct (settle_returns s) as [ps ->]. Qed.

Lemma settle_accounts s :
  let s1 := snd (render s) in
  let s' := snd (settle s) in
  calls s' = calls s ++ due_calls s ++ due_calls s1
  ∧ requestGenerationRef s' =
      Nat.iter (length (due_calls s ++ due_calls s1)) incr (requestGenerationRef s)
  ∧ sourceText s' = sourceText s.
Proof.
  cbn zeta. rewrite settle_snd.
  pose proof (render_accounts s) as (Hc1 & Hg1 & _ & Hx1).
  pose proof (render_accounts (render s).2) as (Hc2 & Hg2 & _ & Hx2).
  cbn zeta in *. rewrite Hc2, Hc1, Hg2, Hg1, Hx2, Hx1, length_app.
  rewrite <- app_assoc. split_and!; [done | | done].
  by rewrite (Nat.add_comm (length _)), Nat.iter_add.
Qed.

Lemma due_calls_length s : (length (due_calls s) <= 1)%nat.
Proof.
  unfold due_calls. destruct (decide _); [cbn; lia|].
  destruct (blank _); cbn; lia.
Qed.

Lemma due_calls_not_blank s c :
  c ∈ due_calls s → c = call_of s ∧ blank (debouncedSourceText s) = false.
Proof.
  unfold due_calls. destruct (decide _); [by intros ?%elem_of_nil|].
  destruct (blank _) eqn:E; [by intros ?%elem_of_nil|].
  by intros ->%list_elem_of_singleton.
Qed.

Lemma incr_min n : incr (N.min n MAX_EXACT) = N.min (n + 1) MAX_EXACT.
Proof.
  unfold incr.
  destruct (N.min_spec n MAX_EXACT) as [[? ->] | [? ->]];
    destruct (N.min_spec (n + 1) MAX_EXACT) as [[? ->] | [? ->]];
    match goal with |- context [?a <? ?b] => destruct (N.ltb_spec a b) end; lia.
Qed.

Lemma iter_incr_min k n :
  Nat.iter k incr (N.min n MAX_EXACT) = N.min (n + N.of_nat k) MAX_EXACT.
Proof.
  induction k as [|k IH].
  - change (N.of_nat 0) with 0. by rewrite N.add_0_r.
  - rewrite Nat.iter_succ, IH, incr_min, Nat2N.inj_succ. f_equal. lia.
Qed.

Lemma step_accounts s ev : accounted s → accounted (step s ev).
Proof.
  intros [Hg Hb]. rewrite step_unfold.
  pose proof (handle_accounts ev s) as [Hc0 Hg0].
  pose proof (settle_accounts (handle ev s).2) as (Hc & Hg' & _). cbn zeta in *.
  split.
  - rewrite Hg', Hg0, Hg, iter_incr_min, Hc, Hc0, !length_app. f_equal. lia.
  - intros c. rewrite Hc, Hc0, !elem_of_app.
    intros [? | [Hin | Hin]]; [by apply Hb | |];
      apply due_calls_not_blank in Hin as [-> ?]; done.
Qed.

Lemma mounted_accounts : accounted mounted.
Proof. split; [vm_compute; reflexivity | intros c Hc; by apply elem_of_nil in Hc]. Qed.

Lemma run_accounts evs s : accounted s → accounted (run evs s).
Proof.
  revert s. induction evs as [|ev evs IH]; intros s Hs; [done|].
  apply IH, step_accounts, Hs.
Qed.

(** X5 — Only the translation effect calls the service.  No handler and
    no completion adds a call or touches the generation counter; the
    renders after an event add at most two calls, in order, without
    removing any; and the source text is only ever changed by a
    handler. *)
Theorem only_the_effect_calls_the_service s ev :
  calls (snd (handle ev s)) = calls s
  ∧ requestGenerationRef (snd (handle ev s)) = requestGenerationRef s
  ∧ ∃ new, calls (step s ev) = calls s ++ new
           ∧ (length new <= 2)%nat
           ∧ requestGenerationRef (step s ev)
             = Nat.iter (length new) incr (requestGenerationRef s)
           ∧ sourceText (step s ev) = sourceText (snd (handle ev s)).
Proof.
  pose proof (handle_accounts ev s) as [Hc0 Hg0].
  split; [done|]. split; [done|]. rewrite step_unfold.
  pose proof (settle_accounts (handle ev s).2) as (Hc & Hg & Hx). cbn zeta in *.
  eexists. rewrite Hc, Hc0, Hg, Hg0. split_and!; [done | | done | done].
  rewrite length_app.
  pose proof (due_calls_length (handle ev s).2).
  pose proof (due_calls_length (render (handle ev s).2).2). lia.
Qed.

(** X6 — The generation counts the calls.  In every state the mounted
    component reaches, the generation counter is the number of calls
    made so far (up to 2^53, where a double stops counting), and every
    call was made with a text that does not trim to empty. *)
Theorem generation_counts_the_calls evs :
  let s := run evs mounted in
  requestGenerationRef s = N.min (N.of_nat (length (calls s))) MAX_EXACT
  ∧ ∀ c, c ∈ calls s → blank (call_text c) = false.
Proof. apply (run_accounts evs mounted mounted_accounts). Qed.

Lemma generation_counts_the_calls_witness :
  let s := run [DebounceEmits (js "rojbas")] mounted in
  requestGenerationRef s = 1 ∧ blank (js "rojbas") = false.
Proof.
  intros s.
  destruct (generation_counts_the_calls [DebounceEmits (js "rojbas")]) as [Hg Hc].
  split.
  - etrans; [exact Hg|]. vm_compute. reflexivity.
  - apply (Hc {| call_text := js "rojbas"; call_sourceLang := Ku;
                 call_targetLang := Tr; call_uiLang := I18n.tr |}).
    vm_compute. apply list_elem_of_singleton. reflexivity.
Defined.


End Accounting.

Section Reaching.
Import App.

Context {number : Type} (number_truthy : number -> bool).

(** X7 — Every call of the component reaches the model.  With the
    credential present, [translateText] answers each call the mounted
    component has made with exactly one call to the model, carrying the
    text of the component's call: its own empty-text return is never
    taken for them. *)
Theorem component_calls_reach_the_model
    (API_KEY : option jsstring)
    (generateContent : GeminiService.GenerateRequest -> GeminiService.GenerateResponse)
    (JSON_parse : jsstring -> option (GeminiService.value (number := number)))
    (evs : list Event) (c : Call) :
  GeminiService.key_missing API_KEY = false →
  c ∈ calls (run evs mounted) →
  ∃ request,
    snd (GeminiService.translateText number_truthy API_KEY generateContent JSON_parse
           (call_text c) (call_sourceLang c) (call_targetLang c) (call_uiLang c))
    = [request]
    ∧ GeminiService.textToTranslate request = call_text c.
Proof.
  intros Hkey Hc.
  apply (proj2 (run_accounts evs mounted mounted_accounts)) in Hc.
  unfold GeminiService.translateText. rewrite Hkey, Hc. cbn. eauto.
Qed.

End Reaching.

Lemma component_calls_reach_the_model_witness :
  let c := {| App.call_text := js "rojbas"; App.call_sourceLang := Ku;
              App.call_targetLang := Tr; App.call_uiLang := I18n.tr |} in
  ∃ request,
    snd (GeminiService.translateText (λ n : N, negb (n =? 0)) (Some (js "secret"))
           (λ _, GeminiService.Throws) (λ _, None) (js "rojbas") Ku Tr I18n.tr)
    = [request]
    ∧ GeminiService.textToTranslate request = js "rojbas".
Proof.
  intros c.
  apply (component_calls_reach_the_model (λ n : N, negb (n =? 0)) (Some (js "secret"))
           (λ _, GeminiService.Throws) (λ _, None)
           [App.DebounceEmits (js "rojbas")] c).
  - reflexivity.
  - vm_compute. apply list_elem_of_singleton. reflexivity.
Defined.

(** ** The component: what an event dispatches *)
Section Dispatching.
Import App AppCalls.

Lemma set_debouncedSourceText_same s :
  set_debouncedSourceText (debouncedSourceText s) s = s.
Proof. by destruct s. Qed.

(** The calls of the renders after an event, in a stable state. *)
Lemma stable_step_calls s ev :
  stable s →
  let s0 := snd (handle ev s) in
  calls (step s ev) =
  calls s
  ++ (if decide (deps s0 = deps s) then []
      else if blank (debouncedSourceText s0) then [] else [call_of s0])
  ++ (if decide (sourceLang s0 = targetLang s0)
      then if blank (debouncedSourceText s0) then []
           else [call_of (set_targetLang (newTargetLang (sourceLang s0)) s0)]
      else []).
Proof.
  intros (Ht & Hl & Hne) s0. rewrite step_unfold. fold s0.
  destruct (handle_stored ev s) as [Ht0 Hl0]. fold s0 in Ht0, Hl0.
  destruct (handle_accounts ev s) as [Hc0 _]. fold s0 in Hc0.
  pose proof (settle_accounts s0) as (-> & _). rewrite Hc0. f_equal.
  pose proof (render_languages s0) as (Hs1 & _ & Ht1 & Hd1 & Hx1 & Hu1).
  cbn zeta in *. set (s1 := (render s0).2) in *. clearbody s1.
  rewrite Hl0, Hl in Ht1.
  assert (due_calls s0 =
          if decide (deps s0 = deps s) then []
          else if blank (debouncedSourceText s0) then [] else [call_of s0]) as ->.
  { unfold due_calls. rewrite Ht0, Ht.
    destruct (decide (deps s0 = deps s)) as [E|E].
    - rewrite decide_True; [done | by rewrite E].
    - rewrite decide_False; [done | congruence]. }
  f_equal. unfold due_calls. rewrite Hd1, Hx1.
  assert (deps s1 = (debouncedSourceText s0, sourceLang s0, targetLang s1, uiLang s0))
    as Hdeps1 by (unfold deps; congruence).
  assert (call_of s1 = call_of (set_targetLang (targetLang s1) s0)) as ->
    by (unfold call_of; cbn; congruence).
  destruct (decide (sourceLang s0 = targetLang s0)) as [E|E].
  - rewrite decide_False in Ht1 by congruence. rewrite Ht1 in *.
    rewrite decide_False; [done|].
    rewrite Hdeps1. unfold deps. intros E'.
    apply (newTargetLang_ne (sourceLang s0)). congruence.
  - assert (targetLang s1 = targetLang s0) as Ht1'.
    { rewrite Ht1. by destruct (decide _). }
    rewrite decide_True; [done|]. rewrite Hdeps1, Ht1'. done.
Qed.

Lemma stable_step_languages s ev :
  stable s →
  let s0 := snd (handle ev s) in
  sourceLang (step s ev) = sourceLang s0
  ∧ targetLang (step s ev) =
      (if decide (sourceLang s0 = targetLang s0) then newTargetLang (sourceLang s0)
       else targetLang s0)
  ∧ stable (step s ev).
Proof.
  intros (Ht & Hl & Hne) s0. rewrite step_unfold. apply settle_languages.
  intros a b. destruct (handle_stored ev s) as [_ ->]. rewrite Hl. congruence.
Qed.

Lemma step_frame s ev :
  let s0 := snd (handle ev s) in
  debouncedSourceText (step s ev) = debouncedSourceText s0
  ∧ uiLang (step s ev) = uiLang s0
  ∧ sourceText (step s ev) = sourceText s0.
Proof.
  intros s0. rewrite step_unfold. fold s0.
  pose proof (settle_accounts s0) as (_ & _ & Hx).
  rewrite settle_snd in *.
  pose proof (render_languages s0) as (_ & _ & _ & _ & Hd1 & Hu1).
  pose proof (render_languages (render s0).2) as (_ & _ & _ & _ & Hd2 & Hu2).
  cbn zeta in *. by rewrite Hd2, Hd1, Hu2, Hu1.
Qed.

(** X8 — What an event dispatches.  In a state the component can be in,
    the renders after an event make a call exactly when the event
    changed the debounced text, a language or the UI language and the
    debounced text is not blank, with the values the event left; and
    they make a second call, with the target the language effect
    forces, exactly when the event left source and target equal. *)
Theorem an_event_dispatches_on_change (evs : list Event) (ev : Event) :
  let s := run evs mounted in
  let s0 := snd (handle ev s) in
  calls (step s ev) =
  calls s
  ++ (if decide (deps s0 = deps s) then []
      else if blank (debouncedSourceText s0) then [] else [call_of s0])
  ++ (if decide (sourceLang s0 = targetLang s0)
      then if blank (debouncedSourceText s0) then []
           else [call_of (set_targetLang (newTargetLang (sourceLang s0)) s0)]
      else []).
Proof. apply stable_step_calls, run_stable, mounted_stable. Qed.

(** X9 — Swapping re-translates the old text at once.  With a debounced
    text that is not blank, swapping the languages dispatches one call
    straight away, with the text that is still the debounced one and
    the languages exchanged; the source text the swap sets is not in
    that call and [debouncedSourceText] is unchanged. *)
Theorem swap_dispatches_the_debounced_text (evs : list Event) :
  let s := run evs mounted in
  blank (debouncedSourceText s) = false →
  let s' := step s SwapLanguages in
  calls s' = calls s ++ [ {| call_text := debouncedSourceText s;
                             call_sourceLang := targetLang s;
                             call_targetLang := sourceLang s;
                             call_uiLang := uiLang s |} ]
  ∧ sourceLang s' = targetLang s ∧ targetLang s' = sourceLang s
  ∧ debouncedSourceText s' = debouncedSourceText s
  ∧ sourceText s' = from_option mainTranslation [] (result s).
Proof.
  intros s Hb s'.
  pose proof (run_stable evs mounted mounted_stable) as Hst. fold s in Hst.
  pose proof (stable_step_calls s SwapLanguages Hst) as Hc.
  pose proof (stable_step_languages s SwapLanguages Hst) as (Hsl & Htl & _).
  pose proof (step_frame s SwapLanguages) as (Hd & _ & Hx).
  destruct Hst as (_ & _ & Hne).
  assert (handleSwapLanguages s =
          (Resolved tt,
           set_sourceText (from_option mainTranslation [] (result s))
             (set_targetLang (sourceLang s) (set_sourceLang (targetLang s) s)))) as Hswap.
  { unfold handleSwapLanguages, setSourceLang, setTargetLang, setSourceText,
      read, modify, mbind, Eff_bind. cbn. do 2 f_equal.
    unfold or_else. by destruct (from_option _ _ _). }
  cbn zeta in *. fold s' in Hc, Hsl, Htl, Hd, Hx.
  cbn [handle] in *. rewrite Hswap in *. cbn [snd] in *.
  rewrite decide_False in Hc by (unfold deps; cbn; congruence).
  rewrite decide_False in Hc by (cbn; congruence).
  rewrite decide_False in Htl by (cbn; congruence).
  cbn in Hc, Hsl, Htl, Hd, Hx. rewrite Hb, app_nil_r in Hc.
  by split_and!.
Qed.

Lemma swap_dispatches_the_debounced_text_witness :
  let s := run [DebounceEmits (js "rojbas")] mounted in
  calls (step s SwapLanguages)
  = calls s ++ [ {| call_text := js "rojbas"; call_sourceLang := Tr;
                    call_targetLang := Ku; call_uiLang := I18n.tr |} ]
  ∧ debouncedSourceText (step s SwapLanguages) = js "rojbas".
Proof.
  intros s.
  pose proof (swap_dispatches_the_debounced_text [DebounceEmits (js "rojbas")]) as H.
  cbn zeta in H. destruct H as (Hc & _ & _ & Hd & _).
  - vm_compute. reflexivity.
  - split; [etrans; [exact Hc|] | etrans; [exact Hd|]]; vm_compute; reflexivity.
Defined.


End Dispatching.

Section MoreDispatching.
Import App AppCalls.

(** X10 — Choosing the language the other selector shows.  With a
    debounced text that is not blank, selecting as source the current
    target (or as target the current source) makes two calls: the first
    asks for a translation from that language into itself, the second
    has the target the language effect forces; the component ends with
    the chosen source (or the source it had) and the forced target. *)
Theorem selecting_the_same_language_dispatches_twice (evs : list Event) :
  let s := run evs mounted in
  blank (debouncedSourceText s) = false →
  let call sl tl := {| call_text := debouncedSourceText s; call_sourceLang := sl;
                       call_targetLang := tl; call_uiLang := uiLang s |} in
  let tl := targetLang s in
  let sl := sourceLang s in
  (calls (step s (SelectSource tl))
   = calls s ++ [call tl tl; call tl (newTargetLang tl)]
   ∧ sourceLang (step s (SelectSource tl)) = tl
   ∧ targetLang (step s (SelectSource tl)) = newTargetLang tl)
  ∧ (calls (step s (SelectTarget sl))
     = calls s ++ [call sl sl; call sl (newTargetLang sl)]
     ∧ sourceLang (step s (SelectTarget sl)) = sl
     ∧ targetLang (step s (SelectTarget sl)) = newTargetLang sl).
Proof.
  intros s Hb call tl sl. subst call tl sl.
  pose proof (run_stable evs mounted mounted_stable) as Hst. fold s in Hst.
  pose proof Hst as (_ & _ & Hne). split.
  - pose proof (stable_step_calls s (SelectSource (targetLang s)) Hst) as Hc.
    pose proof (stable_step_languages s (SelectSource (targetLang s)) Hst) as (Hsl & Htl & _).
    cbn zeta in *. cbn [handle setSourceLang modify snd] in *.
    rewrite decide_False in Hc by (unfold deps; cbn; congruence).
    rewrite decide_True in Hc by reflexivity.
    rewrite decide_True in Htl by reflexivity.
    cbn in Hc, Hsl, Htl. rewrite Hb in Hc. by split_and!.
  - pose proof (stable_step_calls s (SelectTarget (sourceLang s)) Hst) as Hc.
    pose proof (stable_step_languages s (SelectTarget (sourceLang s)) Hst) as (Hsl & Htl & _).
    cbn zeta in *. cbn [handle setTargetLang modify snd] in *.
    rewrite decide_False in Hc by (unfold deps; cbn; congruence).
    rewrite decide_True in Hc by reflexivity.
    rewrite decide_True in Htl by reflexivity.
    cbn in Hc, Hsl, Htl. rewrite Hb in Hc. by split_and!.
Qed.

Lemma settle_without_language_change s :
  languageDeps s = Some (sourceLang s, targetLang s) →
  snd (settle s) = snd (translationEffect s).
Proof.
  intros Hl. rewrite settle_snd.
  pose proof (translationEffect_frame s) as (Hs & Ht & Hl' & Hd & Hu & Hdeps).
  cbn zeta in *.
  assert (snd (render s) = snd (translationEffect s)) as Hr.
  { rewrite render_snd, languageEffect_spec. cbn [snd].
    rewrite decide_True; [done|]. by rewrite Hl', Hs, Ht. }
  rewrite Hr, render_snd, translationEffect_spec.
  rewrite decide_True by (rewrite Hdeps; unfold deps; by rewrite Hd, Hs, Ht, Hu).
  rewrite languageEffect_spec. cbn [snd].
  rewrite decide_True; [done|]. by rewrite Hl', Hs, Ht.
Qed.

(** A debounce emission in a stable state. *)
Lemma stable_debounce s v :
  stable s → v ≠ debouncedSourceText s →
  let s0 := set_debouncedSourceText v s in
  step s (DebounceEmits v)
  = snd (performTranslation (set_translationDeps (Some (deps s0)) s0)).
Proof.
  intros (Ht & Hl & _) Hv s0. rewrite step_unfold. cbn [handle modify snd]. fold s0.
  rewrite settle_without_language_change by exact Hl.
  rewrite translationEffect_spec, decide_False; [done|].
  unfold s0. cbn. rewrite Ht. unfold deps. cbn. congruence.
Qed.

Lemma stable_settles s p o :
  stable s → step s (Settles p o) = snd (resume p o s).
Proof.
  intros (Ht & Hl & Hne). rewrite step_unfold. cbn [handle].
  pose proof (resume_frame p o s) as (Hd & Ht' & Hl' & _).
  rewrite settle_stable_id; [done|]. cbn zeta in *.
  assert (sourceLang (resume p o s).2 = sourceLang s
          ∧ targetLang (resume p o s).2 = targetLang s) as [Hs1 Ht1]
    by (unfold deps in Hd; split; congruence).
  split_and!; [by rewrite Ht', Hd | by rewrite Hl', Hs1, Ht1 | by rewrite Hs1, Ht1].
Qed.

(** X11 — An emptied input does not withdraw the request in flight.
    When the debounced text becomes blank the result is cleared, but
    the generation stays; so when the request dispatched before then
    resolves, its translation is put into [result] although the
    debounced text is blank. *)
Theorem emptied_input_still_gets_the_answer
    (evs : list Event) (v : jsstring) (p : Pending) (r : Translation) :
  let s := run evs mounted in
  currentGeneration p = requestGenerationRef s →
  blank v = true →
  v ≠ debouncedSourceText s →
  let s1 := step s (DebounceEmits v) in
  let s2 := step s1 (Settles p (Resolved r)) in
  result s1 = None
  ∧ requestGenerationRef s1 = requestGenerationRef s
  ∧ calls s2 = calls s
  ∧ debouncedSourceText s2 = v
  ∧ result s2 = Some r
  ∧ isLoading s2 = false.
Proof.
  intros s Hp Hb Hv s1 s2.
  pose proof (run_stable evs mounted mounted_stable) as Hst. fold s in Hst.
  assert (stable s1) as Hst1 by apply step_stable, Hst.
  unfold s2. rewrite (stable_settles _ _ _ Hst1). unfold s1.
  rewrite (stable_debounce s v Hst Hv).
  rewrite performTranslation_blank by exact Hb. cbn [snd].
  rewrite resume_current by (cbn; exact Hp). done.
Qed.

(** X12 — Accepting the correction.  Clicking the correction changes
    the source text to the corrected text when the result has a
    non-empty one, and nothing else, and makes no call; it changes
    nothing when there is no result or the corrected text is empty.
    When the debouncer then emits the corrected text, a call with it is
    dispatched if it is not blank and differs from the text translated
    last, and nothing happens if it is that text. *)
Theorem accepted_correction_is_retranslated (evs : list Event) :
  let s := run evs mounted in
  let s1 := step s CorrectionClick in
  (∀ r, result s = Some r → correctedSourceText r ≠ [] →
     s1 = set_sourceText (correctedSourceText r) s
     ∧ (correctedSourceText r ≠ debouncedSourceText s →
        blank (correctedSourceText r) = false →
        let s2 := step s1 (DebounceEmits (correctedSourceText r)) in
        calls s2 = calls s ++ [ {| call_text := correctedSourceText r;
                                   call_sourceLang := sourceLang s;
                                   call_targetLang := targetLang s;
                                   call_uiLang := uiLang s |} ]
        ∧ isLoading s2 = true
        ∧ requestGenerationRef s2 = incr (requestGenerationRef s))
     ∧ (correctedSourceText r = debouncedSourceText s →
        step s1 (DebounceEmits (correctedSourceText r)) = s1))
  ∧ (result s = None → s1 = s)
  ∧ (∀ r, result s = Some r → correctedSourceText r = [] → s1 = s).
Proof.
  intros s s1.
  pose proof (run_stable evs mounted mounted_stable) as Hst. fold s in Hst.
  assert (∀ s0, stable s0 → handleCorrectionClick s = (Resolved tt, s0) → s1 = s0)
    as Hstep.
  { intros s0 Hs0 H. unfold s1. rewrite step_unfold. cbn [handle]. rewrite H.
    cbn [snd]. by rewrite settle_stable_id. }
  split_and!.
  - intros r Hr Hc.
    assert (s1 = set_sourceText (correctedSourceText r) s) as Hs1.
    { apply Hstep; [by destruct Hst as (? & ? & ?)|].
      unfold handleCorrectionClick, setSourceText, read, modify, when, mbind, Eff_bind.
      rewrite Hr. by destruct (correctedSourceText r). }
    assert (stable s1) as Hst1 by apply step_stable, Hst.
    split; [done|]. rewrite Hs1 in *. split.
    + intros Hne Hb s2. unfold s2.
      rewrite stable_debounce by done.
      rewrite performTranslation_dispatch by exact Hb. done.
    + intros ->. rewrite step_unfold. cbn [handle modify snd].
      change (debouncedSourceText s)
        with (debouncedSourceText (set_sourceText (debouncedSourceText s) s)) at 1.
      rewrite set_debouncedSourceText_same. by rewrite settle_stable_id.
  - intros Hr. apply Hstep; [done|].
    unfold handleCorrectionClick, read, mbind, Eff_bind. by rewrite Hr.
  - intros r Hr Hc. apply Hstep; [done|].
    unfold handleCorrectionClick, read, when, mbind, Eff_bind. by rewrite Hr, Hc.
Qed.

Lemma selecting_the_same_language_dispatches_twice_witness :
  let s := run [DebounceEmits (js "rojbas")] mounted in
  let call sl tl := {| call_text := js "rojbas"; call_sourceLang := sl;
                       call_targetLang := tl; call_uiLang := I18n.tr |} in
  calls (step s (SelectSource Tr)) = calls s ++ [call Tr Tr; call Tr Ku]
  ∧ calls (step s (SelectTarget Ku)) = calls s ++ [call Ku Ku; call Ku En].
Proof.
  intros s call.
  pose proof (selecting_the_same_language_dispatches_twice
                [DebounceEmits (js "rojbas")]) as H.
  cbn zeta in H. destruct H as [(H1 & _) (H2 & _)].
  - vm_compute. reflexivity.
  - split; [etrans; [exact H1|] | etrans; [exact H2|]]; vm_compute; reflexivity.
Defined.

Lemma emptied_input_still_gets_the_answer_witness :
  let r : Translation :=
    {| detectedLanguage := js "ku"; correctedSourceText := js "rojbas";
       mainTranslation := js "merhaba"; alternativeTranslations := [];
       meaningExplanation := [] |} in
  let p := {| currentGeneration := 1; closure_uiLang := I18n.tr |} in
  let s := run [DebounceEmits (js "rojbas")] mounted in
  let s2 := step (step s (DebounceEmits [])) (Settles p (Resolved r)) in
  debouncedSourceText s2 = [] ∧ result s2 = Some r.
Proof.
  intros r p s s2.
  pose proof (emptied_input_still_gets_the_answer
                [DebounceEmits (js "rojbas")] [] p r) as H.
  cbn zeta in H. destruct H as (_ & _ & _ & Hd & Hr & _).
  - vm_compute. reflexivity.
  - vm_compute. reflexivity.
  - vm_compute. discriminate.
  - split; [exact Hd | exact Hr].
Defined.

Lemma accepted_correction_is_retranslated_witness :
  let r : Translation :=
    {| detectedLanguage := js "ku"; correctedSourceText := js "rojbas";
       mainTranslation := js "merhaba"; alternativeTranslations := [];
       meaningExplanation := [] |} in
  let p := {| currentGeneration := 1; closure_uiLang := I18n.tr |} in
  let s := run [TypeText (js "rojbs"); DebounceEmits (js "rojbs");
                Settles p (Resolved r)] mounted in
  let s1 := step s CorrectionClick in
  s1 = set_sourceText (js "rojbas") s
  ∧ requestGenerationRef (step s1 (DebounceEmits (js "rojbas"))) = 2.
Proof.
  intros r p s s1.
  pose proof (accepted_correction_is_retranslated
                [TypeText (js "rojbs"); DebounceEmits (js "rojbs");
                 Settles p (Resolved r)]) as H.
  cbn zeta in H. destruct H as (H & _). destruct (H r) as (H1 & H2 & _).
  - vm_compute. reflexivity.
  - vm_compute. discriminate.
  - split; [exact H1|]. destruct H2 as (_ & _ & Hg).
    + vm_compute. discriminate.
    + vm_compute. reflexivity.
    + etrans; [exact Hg|]. vm_compute. reflexivity.
Defined.


End MoreDispatching.

(** ** Promoting an alternative, in general *)
Section Promotion.
Import App.

Lemma filter_other_id (x : jsstring) (l : list jsstring) :
  x ∉ l → filter (λ t, t ≠ x) l = l.
Proof.
  induction l as [|y l IH]; [done|]. intros [Hne Hl]%not_elem_of_cons.
  rewrite filter_cons_True by congruence. by rewrite IH.
Qed.

Lemma filter_other_perm (x : jsstring) (l : list jsstring) :
  NoDup l → x ∈ l → x :: filter (λ t, t ≠ x) l ≡ₚ l.
Proof.
  induction l as [|y l IH]; intros Hnd Hin; [by apply elem_of_nil in Hin|].
  apply NoDup_cons in Hnd as [Hy Hnd].
  destruct (decide (y = x)) as [->|Hne].
  - rewrite filter_cons_False by (intros E; by apply E).
    by rewrite filter_other_id.
  - rewrite filter_cons_True by done.
    apply elem_of_cons in Hin as [-> | Hin]; [done|].
    rewrite Permutation_swap. by rewrite IH.
Qed.

Lemma handleAlternativeClick_some s r alternative :
  result s = Some r →
  handleAlternativeClick alternative s =
  (Resolved tt,
   set_result
     (Some {| detectedLanguage := detectedLanguage r;
              correctedSourceText := correctedSourceText r;
              mainTranslation := alternative;
              alternativeTranslations :=
                filter (λ t, t ≠ alternative) (alternativeTranslations r)
                ++ [mainTranslation r];
              meaningExplanation := meaningExplanation r |}) s).
Proof.
  intros Hr. unfold handleAlternativeClick, setResult, read, modify, mbind, Eff_bind.
  by rewrite Hr.
Qed.

(** X13 — Promotion loses and invents nothing.  For a result whose
    alternatives are pairwise distinct, clicking one of them makes it
    the main translation, and the main translation with the
    alternatives is afterwards a rearrangement of what it was before.
    If the old main translation was not among the alternatives,
    clicking it next brings it back as main translation, with the same
    alternatives, the one clicked first now last. *)
Theorem promotion_rearranges_the_translations s r A :
  result s = Some r →
  NoDup (alternativeTranslations r) →
  A ∈ alternativeTranslations r →
  let s1 := snd (handleAlternativeClick A s) in
  ∃ r1, result s1 = Some r1
    ∧ mainTranslation r1 = A
    ∧ mainTranslation r1 :: alternativeTranslations r1
      ≡ₚ mainTranslation r :: alternativeTranslations r
    ∧ (mainTranslation r ∉ alternativeTranslations r →
       NoDup (alternativeTranslations r1)
       ∧ let s2 := snd (handleAlternativeClick (mainTranslation r) s1) in
         ∃ r2, result s2 = Some r2
           ∧ mainTranslation r2 = mainTranslation r
           ∧ alternativeTranslations r2
             = filter (λ t, t ≠ A) (alternativeTranslations r) ++ [A]
           ∧ alternativeTranslations r2 ≡ₚ alternativeTranslations r
           ∧ correctedSourceText r2 = correctedSourceText r
           ∧ meaningExplanation r2 = meaningExplanation r
           ∧ detectedLanguage r2 = detectedLanguage r).
Proof.
  intros Hr Hnd Hin s1. unfold s1.
  rewrite (handleAlternativeClick_some s r A Hr). cbn [snd].
  eexists. split; [reflexivity|]. cbn [mainTranslation alternativeTranslations].
  split; [done|]. split.
  - rewrite app_comm_cons, (filter_other_perm A _ Hnd Hin).
    by rewrite <- Permutation_cons_append.
  - intros HM. set (M := mainTranslation r) in *.
    assert (M ≠ A) as HMA by (intros ->; done).
    split.
    + apply NoDup_app. split_and!; [by apply NoDup_filter | | apply NoDup_singleton].
      intros x [_ Hx]%list_elem_of_filter ->%list_elem_of_singleton. done.
    + erewrite handleAlternativeClick_some by reflexivity. cbn [snd].
      eexists. split; [reflexivity|].
      cbn [mainTranslation alternativeTranslations correctedSourceText
           meaningExplanation detectedLanguage].
      assert (filter (λ t, t ≠ M)
                (filter (λ t, t ≠ A) (alternativeTranslations r) ++ [M])
              = filter (λ t, t ≠ A) (alternativeTranslations r)) as ->.
      { rewrite filter_app, filter_cons_False by (intros E; by apply E).
        rewrite filter_nil, app_nil_r. apply filter_other_id.
        intros [_ ?]%list_elem_of_filter. done. }
      split_and!; try done.
      rewrite <- Permutation_cons_append. by apply filter_other_perm.
Qed.

Lemma promotion_rearranges_the_translations_witness :
  let r : Translation :=
    {| detectedLanguage := []; correctedSourceText := js "rojbas";
       mainTranslation := js "M";
       alternativeTranslations := [js "A"; js "B"; js "C"];
       meaningExplanation := js "a greeting" |} in
  let s := set_result (Some r) mounted in
  ∃ r1, result (snd (handleAlternativeClick (js "B") s)) = Some r1
      ∧ mainTranslation r1 = js "B".
Proof.
  intros r s.
  destruct (promotion_rearranges_the_translations s r (js "B")) as (r1 & H1 & H2 & _).
  - reflexivity.
  - vm_compute. repeat constructor; rewrite ?elem_of_cons, ?elem_of_nil;
      intros H; repeat destruct H as [H|H]; discriminate || done.
  - vm_compute. right; left.
  - exists r1. split; [exact H1 | exact H2].
Defined.

End Promotion.

(** ** The debouncer: pending timeouts *)
Section DebouncePending.
Import useDebounce.

Variable delay : N.

(** While mounted, the debounced value lags behind only with a timeout
    pending. *)
Lemma step_caught_up h src ev :
  tracks delay h src →
  (mounted h = true → timers h = [] → debouncedValue h = value h) →
  let h' := step delay h ev in
  mounted h' = true → timers h' = [] → debouncedValue h' = value h'.
Proof.
  intros Ht Hc h'. subst h'. destruct ev as [d|v|id|]; cbn.
  - exact Hc.
  - unfold render. destruct (mounted h) eqn:Hm; cbn; [|congruence].
    destruct (decide (v = value h)); [intros _; by apply Hc|]. cbn.
    intros _ []%app_eq_nil. done.
  - unfold fire. destruct (find_timer id (timers h)) as [tm|] eqn:E; [|exact Hc].
    destruct (due tm <=? now h); [|exact Hc].
    apply (fire_timer _ _ _ _ _ Ht) in E as (_ & _ & Hm & Hp & _).
    cbn. rewrite Hm. by intros _ _.
  - unfold unmount. destruct (mounted h) eqn:Hm; cbn; [done|congruence].
Qed.

Lemma run_caught_up evs h src :
  tracks delay h src →
  (mounted h = true → timers h = [] → debouncedValue h = value h) →
  let h' := run delay evs h in
  mounted h' = true → timers h' = [] → debouncedValue h' = value h'.
Proof.
  revert h src. induction evs as [|ev evs IH]; intros h src Ht Hc; [done|].
  cbn. apply (IH _ (observe src ev)); [by apply step_tracks|].
  by apply (step_caught_up h src ev).
Qed.

End DebouncePending.

Section DebouncePendingContract.
Import useDebounce.

(** X14 — One timeout at most, and one whenever it is needed.  However
    the component renders, time passes and timeouts fire, the hook has
    at most one timeout pending; the pending one is the one its cleanup
    holds and carries the current value; and while the component is
    mounted and the debounced value differs from the current value, one
    is pending.  After teardown none is. *)
Theorem one_pending_timeout (t0 : N) (v0 : jsstring) (evs : list Event) :
  let h := run App.debounceDelay evs (mount App.debounceDelay t0 v0) in
  (length (timers h) <= 1)%nat
  ∧ (∀ tm, tm ∈ timers h →
       mounted h = true ∧ handler h = Some (timer_id tm) ∧ payload tm = value h)
  ∧ (mounted h = true → debouncedValue h ≠ value h → timers h ≠ [])
  ∧ (mounted h = false → timers h = []).
Proof.
  intros h.
  pose proof (mounted_run_tracks App.debounceDelay t0 v0 evs) as Ht. fold h in Ht.
  pose proof (run_caught_up App.debounceDelay evs (mount App.debounceDelay t0 v0) _
                (mount_tracks App.debounceDelay t0 v0)) as Hc.
  cbn zeta in Hc. fold h in Hc.
  destruct Ht as (_ & _ & [E | (tm & E & Hm & Hh & Hp & _)]); rewrite E.
  - split_and!; [cbn; lia | by intros ? ?%elem_of_nil | | done].
    intros Hm Hne _. by apply Hne, Hc.
  - split_and!; [cbn; lia | by intros ? ->%list_elem_of_singleton | done |].
    intros Hm'. congruence.
Qed.

Lemma one_pending_timeout_witness :
  let h := run App.debounceDelay [Render (js "a")] (mount App.debounceDelay 0 []) in
  timers h ≠ []
  ∧ payload {| timer_id := 1; due := 750; payload := js "a" |} = value h.
Proof.
  intros h.
  destruct (one_pending_timeout 0 [] [Render (js "a")]) as (_ & Hp & Hn & _).
  split.
  - apply Hn; vm_compute; [reflexivity | discriminate].
  - apply (Hp {| timer_id := 1; due := 750; payload := js "a" |}).
    vm_compute. apply list_elem_of_singleton. reflexivity.
Defined.


End DebouncePendingContract.

(** ** The copy indicator *)
Section ClipboardFacts.
Import Clipboard.

Lemma find_id (l : list Timer) (tm : Timer) :
  NoDup (timer_id <$> l) → tm ∈ l →
  List.find (λ tm', bool_decide (timer_id tm' = timer_id tm)) l = Some tm.
Proof.
  induction l as [|x l IH]; intros Hnd Hin; [by apply elem_of_nil in Hin|].
  rewrite fmap_cons in Hnd. apply NoDup_cons in Hnd as [Hx Hnd]. cbn.
  apply elem_of_cons in Hin as [->|Hin].
  - by rewrite bool_decide_true.
  - rewrite bool_decide_false; [by apply IH|].
    intros E. apply Hx. rewrite E. by apply list_elem_of_fmap_2.
Qed.

Lemma same_id (l : list Timer) (x y : Timer) :
  NoDup (timer_id <$> l) → x ∈ l → y ∈ l → timer_id x = timer_id y → x = y.
Proof.
  intros Hnd Hx Hy E.
  pose proof (find_id l x Hnd Hx) as Fx. pose proof (find_id l y Hnd Hy) as Fy.
  rewrite E in Fx. congruence.
Qed.

Lemma find_timer_id (l : list Timer) (tid : N) (tm : Timer) :
  List.find (λ tm', bool_decide (timer_id tm' = tid)) l = Some tm →
  tm ∈ l ∧ timer_id tm = tid.
Proof.
  intros [Hin Hb]%find_some. split; [by apply list_elem_of_In|].
  by apply bool_decide_eq_true in Hb.
Qed.

Lemma NoDup_ids_filter (P : Timer → Prop) `{∀ x, Decision (P x)} (l : list Timer) :
  NoDup (timer_id <$> l) → NoDup (timer_id <$> filter P l).
Proof.
  intros Hnd. eapply sublist_NoDup; [exact Hnd|].
  apply fmap_sublist, sublist_filter.
Qed.

Lemma copyToClipboard_truthy txt id s :
  truthy txt = true →
  copyToClipboard (Some txt) id s =
  {| copiedStates := <[id := true]> (copiedStates s);
     written := written s ++ [txt];
     now := now s;
     timers := timers s ++
               [ {| timer_id := nextId s; due := now s + 2000; target := id |} ];
     nextId := nextId s + 1 |}.
Proof. intros E. unfold copyToClipboard. by rewrite E. Qed.

Lemma fire_due tid tm s :
  NoDup (timer_id <$> timers s) → tm ∈ timers s → timer_id tm = tid →
  due tm <= now s →
  fire tid s =
  {| copiedStates := <[target tm := false]> (copiedStates s);
     written := written s;
     now := now s;
     timers := filter (λ tm', timer_id tm' ≠ tid) (timers s);
     nextId := nextId s |}.
Proof.
  intros Hnd Hin <- Hd. unfold fire. rewrite (find_id _ _ Hnd Hin).
  by apply N.leb_le in Hd as ->.
Qed.

Lemma step_well_timed s ev : well_timed s → well_timed (step s ev).
Proof.
  intros (Hnd & Hb & Hi). destruct ev as [[txt|] id|d|tid]; cbn; [| done | |].
  - unfold copyToClipboard. destruct (truthy txt); cbn; [|done].
    split; [|split]; cbn.
    + rewrite fmap_app. apply NoDup_app. split; [done|]. split; [|apply NoDup_singleton].
      intros x (tm & -> & Hin)%list_elem_of_fmap Hx%list_elem_of_singleton.
      apply Hb in Hin as [Hlt _]. cbn in Hx. lia.
    + intros tm [Hin| ->%list_elem_of_singleton]%elem_of_app.
      * apply Hb in Hin. lia.
      * cbn. lia.
    + intros id' Hl. destruct (decide (id' = id)) as [->|Hne].
      * eexists. split; [apply elem_of_app; right; by apply list_elem_of_singleton|done].
      * rewrite lookup_insert_ne in Hl by done.
        destruct (Hi _ Hl) as (tm & Hin & Ht). exists tm. split; [|done].
        apply elem_of_app. by left.
  - split; [|split]; cbn; [done| |done].
    intros tm Hin. apply Hb in Hin. lia.
  - unfold fire.
    destruct (List.find _ (timers s)) as [tm|] eqn:E; [|done].
    destruct (due tm <=? now s); [|done].
    apply find_timer_id in E as [Hin Hid].
    split; [|split]; cbn.
    + by apply NoDup_ids_filter.
    + intros tm' [_ Hin']%list_elem_of_filter. by apply Hb.
    + intros id' Hl. destruct (decide (id' = target tm)) as [->|Hne].
      * by rewrite lookup_insert_eq in Hl.
      * rewrite lookup_insert_ne in Hl by done.
        destruct (Hi _ Hl) as (tm' & Hin' & Ht). exists tm'. split; [|done].
        apply list_elem_of_filter. split; [|done].
        intros E. apply Hne. rewrite <- Ht. f_equal.
        apply (same_id (timers s)); congruence.
Qed.

Lemma initial_well_timed t0 : well_timed (initial t0).
Proof.
  split; [|split]; cbn.
  - apply NoDup_nil_2.
  - by intros tm ?%elem_of_nil.
  - intros id Hl. by rewrite lookup_empty in Hl.
Qed.

Lemma run_well_timed evs s : well_timed s → well_timed (run evs s).
Proof.
  revert s. induction evs as [|ev evs IH]; intros s Hs; [done|].
  cbn. by apply IH, step_well_timed.
Qed.

Lemma shown_true s id : shown s id = true ↔ copiedStates s !! id = Some true.
Proof.
  unfold shown. destruct (copiedStates s !! id) as [[]|]; cbn; naive_solver.
Qed.

(** Running the callbacks of a list of due timeouts of the table. *)
Lemma fire_list (l : list Timer) (s : State) :
  NoDup (timer_id <$> timers s) → NoDup (timer_id <$> l) →
  (∀ tm, tm ∈ l → tm ∈ timers s ∧ due tm <= now s) →
  let s' := foldl (λ s tm, fire (timer_id tm) s) s l in
  (∀ tm, tm ∈ timers s' → tm ∈ timers s ∧ tm ∉ l)
  ∧ (∀ id, copiedStates s' !! id = Some true →
       copiedStates s !! id = Some true ∧ id ∉ (target <$> l)).
Proof.
  revert s. induction l as [|tm l IH]; intros s Hnd Hl Hin; cbn.
  - split.
    + intros tm Htm. split; [done|]. by intros ?%elem_of_nil.
    + intros id Hid. split; [done|]. by intros ?%elem_of_nil.
  - rewrite fmap_cons in Hl. apply NoDup_cons in Hl as [Htm Hl].
    destruct (Hin tm) as [Htm_in Htm_due]; [by left|].
    rewrite (fire_due _ tm s Hnd Htm_in eq_refl Htm_due).
    match goal with |- context [foldl _ ?s1 l] => set (s1' := s1) end.
    destruct (IH s1') as [IHt IHc]; subst s1'; cbn.
    + by apply NoDup_ids_filter.
    + done.
    + intros tm' Htm'. destruct (Hin tm') as [H1 H2]; [by right|].
      split; [|done]. apply list_elem_of_filter. split; [|done].
      intros E. apply Htm. rewrite <- E. by apply list_elem_of_fmap_2.
    + split.
      * intros tm' Htm'. destruct (IHt _ Htm') as [[Hne H1]%list_elem_of_filter H2].
        split; [done|]. apply not_elem_of_cons. split; [|done].
        intros ->. done.
      * intros id Hid. destruct (IHc _ Hid) as [H1 H2]. cbn in H1.
        destruct (decide (id = target tm)) as [->|Hne].
        -- by rewrite lookup_insert_eq in H1.
        -- rewrite lookup_insert_ne in H1 by done. split; [done|].
           rewrite ?fmap_cons. apply not_elem_of_cons. done.
Qed.

Lemma written_run evs s : written (run evs s) = written s ++ copied evs.
Proof.
  revert s. induction evs as [|ev evs IH]; intros s; [by rewrite app_nil_r|].
  cbn [run foldl]. fold (run evs (step s ev)). rewrite IH.
  destruct ev as [[txt|] id|d|tid]; cbn.
  - unfold copyToClipboard, copied. cbn. destruct (truthy txt); cbn; [|done].
    by rewrite <- app_assoc.
  - done.
  - done.
  - unfold fire. destruct (List.find _ _) as [tm|]; [|done].
    by destruct (due tm <=? now s).
Qed.

(** X15 — The copy indicator goes off again.  In every state the
    component reaches by copying, time passing and timeouts running, an
    indicator that is on has a timeout pending that turns it off, due at
    most 2000 from now; so 2000 later, once the pending timeouts have
    run, none is left and no indicator is on. *)
Theorem copy_indicators_go_off (t0 : N) (evs : list Event) :
  let s := run evs (initial t0) in
  (∀ id, shown s id = true →
     ∃ tm, tm ∈ timers s ∧ target tm = id ∧ due tm <= now s + 2000)
  ∧ let s' := flush (elapse 2000 s) in
    timers s' = [] ∧ ∀ id, shown s' id = false.
Proof.
  intros s.
  pose proof (run_well_timed evs _ (initial_well_timed t0)) as (Hnd & Hb & Hi).
  fold s in Hnd, Hb, Hi. split.
  - intros id [tm [Hin Ht]]%shown_true%Hi. exists tm.
    split; [done|]. split; [done|]. by apply Hb.
  - unfold flush.
    destruct (fire_list (timers (elapse 2000 s)) (elapse 2000 s)) as [Ht Hc];
      [done | done | |].
    + intros tm Hin. split; [done|]. cbn in *. by apply Hb.
    + cbn zeta. split.
      * match goal with |- ?ts = [] => destruct ts as [|tm ts'] eqn:E end; [done|].
        destruct (Ht tm) as [H1 H2]; [by left|]. done.
      * intros id. apply not_true_is_false. intros Hs%shown_true.
        destruct (Hc _ Hs) as [H1 H2]. cbn in H1, H2.
        destruct (Hi _ H1) as (tm & Hin & Htg). apply H2. rewrite <- Htg.
        by apply list_elem_of_fmap_2.
Qed.

(** X16 — What reaches the clipboard.  The texts written to the
    clipboard are exactly the non-empty texts handed to
    [copyToClipboard], in the order of the clicks: an undefined or empty
    text writes nothing, and neither time nor a timeout does. *)
Theorem clipboard_receives_the_copied_texts (t0 : N) (evs : list Event) :
  written (run evs (initial t0)) = copied evs
  ∧ ∀ text id, written (run (evs ++ [Copy text id]) (initial t0)) =
      match text with
      | Some txt => if truthy txt then copied evs ++ [txt] else copied evs
      | None => copied evs
      end.
Proof.
  split; [by rewrite written_run|].
  intros text id. rewrite written_run. cbn. unfold copied. rewrite omap_app. cbn.
  destruct text as [txt|]; [destruct (truthy txt)|]; cbn; by rewrite ?app_nil_r.
Qed.

(** X17 — A timeout is never cancelled.  When the same button is clicked
    again [d] after a click ([d] at most 2000), the timeout of the first
    click still runs 2000 after the first click: it turns the indicator
    off [2000 - d] after the second click, while the timeout of the
    second click is still pending for another [d]. *)
Theorem earlier_timeout_ends_a_later_indication
    (t0 : N) (evs : list Event) (a b id : jsstring) (d : N) :
  truthy a = true → truthy b = true → d <= 2000 →
  let s := run evs (initial t0) in
  let s2 := copyToClipboard (Some b) id (elapse d (copyToClipboard (Some a) id s)) in
  shown s2 id = true
  ∧ let s3 := fire (nextId s) (elapse (2000 - d) s2) in
    shown s3 id = false
    ∧ now s3 = now s2 + (2000 - d)
    ∧ ∃ tm, tm ∈ timers s3 ∧ target tm = id ∧ due tm = now s3 + d.
Proof.
  intros Ha Hb Hd s s2.
  assert (NoDup (timer_id <$> timers (elapse (2000 - d) s2))) as Hnd.
  { pose proof (run_well_timed evs _ (initial_well_timed t0)) as Hs. fold s in Hs.
    apply (step_well_timed _ (Copy (Some a) id)) in Hs.
    apply (step_well_timed _ (Elapse d)) in Hs.
    apply (step_well_timed _ (Copy (Some b) id)) in Hs.
    apply (step_well_timed _ (Elapse (2000 - d))) in Hs. exact (proj1 Hs). }
  subst s2. rewrite (copyToClipboard_truthy a), (copyToClipboard_truthy b) in * by done.
  cbn in *. split.
  - unfold shown. cbn. by rewrite lookup_insert_eq.
  - set (tm1 := {| timer_id := nextId s; due := now s + 2000; target := id |}).
    rewrite (fire_due _ tm1); cbn; [| done | | done | lia].
    + split; [|split].
      * unfold shown. cbn. by rewrite lookup_insert_eq.
      * done.
      * eexists {| timer_id := nextId s + 1; due := now s + d + 2000; target := id |}.
        split; [|split; [done|cbn; lia]].
        apply list_elem_of_filter. split; [cbn; lia|].
        apply elem_of_app. right. by apply list_elem_of_singleton.
    + apply elem_of_app. left. apply elem_of_app. right.
      by apply list_elem_of_singleton.
Qed.

Lemma copy_indicators_go_off_witness :
  let s := run [Copy (Some (js "merhaba")) (js "target")] (initial 0) in
  ∃ tm, tm ∈ timers s ∧ target tm = js "target" ∧ due tm <= now s + 2000.
Proof.
  intros s.
  apply (proj1 (copy_indicators_go_off 0 [Copy (Some (js "merhaba")) (js "target")])).
  vm_compute. reflexivity.
Defined.

Lemma earlier_timeout_ends_a_later_indication_witness :
  let s2 := copyToClipboard (Some (js "merhaba")) (js "target")
              (elapse 500 (copyToClipboard (Some (js "merhaba")) (js "target")
                             (initial 0))) in
  shown s2 (js "target") = true
  ∧ shown (fire 0 (elapse 1500 s2)) (js "target") = false.
Proof.
  intros s2.
  destruct (earlier_timeout_ends_a_later_indication 0 [] (js "merhaba") (js "merhaba")
              (js "target") 500) as (H1 & H2 & _).
  - vm_compute. reflexivity.
  - vm_compute. reflexivity.
  - lia.
  - split; [exact H1 | exact H2].
Defined.


End ClipboardFacts.
